(** * pretalx schedule versioning: a shallow embedding of
    [pretalx/schedule/selectors.py], [pretalx/schedule/actions.py] and
    [pretalx/schedule/models/schedule.py].

    Database rows are records, querysets are lists in the order the store
    yields them, Python sets are duplicate-free lists, Python dicts are
    insertion-ordered association lists.  Stateful code threads a [Store]
    explicitly; [transaction.atomic] is modelled by returning the input store
    whenever an exception is raised. *)

From Stdlib Require Import String ZArith Bool Lia Permutation List Sorted.
Import ListNotations.
Open Scope Z_scope.

(** ** Data model *)
(** [SubmissionStates] (from [pretalx.submission.models]). *)
Inductive SubmissionState :=
| SUBMITTED | ACCEPTED | REJECTED | CONFIRMED | CANCELED | WITHDRAWN | DELETED.

Definition state_eqb (a b : SubmissionState) : bool :=
  match a, b with
  | SUBMITTED, SUBMITTED | ACCEPTED, ACCEPTED | REJECTED, REJECTED
  | CONFIRMED, CONFIRMED | CANCELED, CANCELED | WITHDRAWN, WITHDRAWN
  | DELETED, DELETED => true
  | _, _ => false
  end.

(** A [Room] row: its primary key, [name] and [speaker_info]. *)
Record Room := mkRoom {
  room_pk : Z;
  room_name : string;
  speaker_info : string
}.

(** A [TalkSlot] row.  [start] and [end] are instants (seconds); [end] is
    spelled [end_] since [end] is a keyword. *)
Record TalkSlot := mkSlot {
  slot_pk : Z;
  slot_schedule : Z;
  submission : Z;
  room : option Room;
  start : option Z;
  end_ : option Z;
  is_visible : bool
}.

(** A [Schedule] row. *)
Record Schedule := mkSchedule {
  sched_pk : Z;
  sched_event : Z;
  version : option string;
  published : option Z
}.

Definition opt_eqb {A} (eqb : A -> A -> bool) (x y : option A) : bool :=
  match x, y with
  | Some a, Some b => eqb a b
  | None, None => true
  | _, _ => false
  end.

(** The structural key of a slot, [values_list('submission', 'room', 'start')]:
    the room column holds the room's primary key. *)
Definition SlotKey : Type := (Z * option Z * option Z)%type.

Definition slot_key (s : TalkSlot) : SlotKey :=
  (submission s, option_map room_pk (room s), start s).

Definition key_eqb (a b : SlotKey) : bool :=
  let '(s1, r1, t1) := a in
  let '(s2, r2, t2) := b in
  Z.eqb s1 s2 && opt_eqb Z.eqb r1 r2 && opt_eqb Z.eqb t1 t2.

Definition key_mem (k : SlotKey) (l : list SlotKey) : bool :=
  existsb (key_eqb k) l.

Definition z_mem (x : Z) (l : list Z) : bool := existsb (Z.eqb x) l.

(** Building a Python [set] from a [values_list]: duplicates dropped, first
    occurrence kept.  (CPython iterates a set in hash order; the lemmas about
    the comparison loop below hold for any iteration order.) *)
Fixpoint dedup {A} (eqb : A -> A -> bool) (l : list A) : list A :=
  match l with
  | [] => []
  | x :: xs => if existsb (eqb x) xs then dedup eqb xs else x :: dedup eqb xs
  end.

(** Modelled from the spec: [TalkSlot.is_same_slot] (the [TalkSlot] model is
    not part of the sources); "two slots are the same placement iff they
    share (submission, room, start)". *)
Definition is_same_slot (a b : TalkSlot) : bool := key_eqb (slot_key a) (slot_key b).

(** [queryset.filter(submission__pk=pk)]. *)
Definition filter_submission (pk : Z) (l : list TalkSlot) : list TalkSlot :=
  filter (fun s => Z.eqb (submission s) pk) l.

(** ** Diff engine: [pretalx/schedule/selectors.py] *)
(** One entry of [moved_talks].  [astimezone(tz)] changes the presentation
    of an instant, not the instant, so the starts are kept as instants;
    [.room.name] of a slot without a room would raise, the [scheduled_talks]
    the function is called on all have a room. *)
Record MoveRecord := mkMove {
  mv_submission : Z;
  old_start : option Z;
  new_start : option Z;
  old_room : option string;
  new_room : option string;
  new_info : option string
}.

Definition mk_move (old_slot new_slot : TalkSlot) : MoveRecord :=
  {| mv_submission := submission new_slot;
     old_start := start old_slot;
     new_start := start new_slot;
     old_room := option_map room_name (room old_slot);
     new_room := option_map room_name (room new_slot);
     new_info := option_map speaker_info (room new_slot) |}.

(** [_handle_submission_move(submission_pk, old_slots, new_slots, tz)];
    returns [(new, canceled, moved)].  Python's [len] difference is an
    integer; slicing by [diff] is [firstn]/[skipn]. *)
Definition _handle_submission_move (submission_pk : Z)
    (old_slots new_slots : list TalkSlot)
    : list TalkSlot * list TalkSlot * list MoveRecord :=
  let all_old_slots := filter_submission submission_pk old_slots in
  let all_new_slots := filter_submission submission_pk new_slots in
  let old_slots := filter (fun slot =>
        negb (existsb (fun other_slot => is_same_slot slot other_slot) all_new_slots))
        all_old_slots in
  let new_slots := filter (fun slot =>
        negb (existsb (fun other_slot => is_same_slot slot other_slot) all_old_slots))
        all_new_slots in
  let diff := Z.of_nat (length old_slots) - Z.of_nat (length new_slots) in
  let '(new, canceled, old_slots, new_slots) :=
    if 0 <? diff then
      ([], firstn (Z.to_nat diff) old_slots, skipn (Z.to_nat diff) old_slots, new_slots)
    else if diff <? 0 then
      let diff := - diff in
      (firstn (Z.to_nat diff) new_slots, [], old_slots, skipn (Z.to_nat diff) new_slots)
    else ([], [], old_slots, new_slots) in
  let moved := map (fun move => mk_move (fst move) (snd move)) (combine old_slots new_slots) in
  (new, canceled, moved).

(** The change-set dictionary of [compare_schedule_with_predecessor]. *)
Inductive Action := create | update.

Record ChangeSet := mkChanges {
  count : nat;
  action : Action;
  new_talks : list TalkSlot;
  canceled_talks : list TalkSlot;
  moved_talks : list MoveRecord
}.

(** The mutable locals of the two loops of
    [compare_schedule_with_predecessor]: [handled_submissions] and the three
    lists of [result].  [calls] is ghost state, not in the source: the
    submission of every loop iteration that reached a classification branch
    (the lines after the [continue]), in order. *)
Record LoopState := mkLoop {
  handled_submissions : list Z;
  r_new : list TalkSlot;
  r_canceled : list TalkSlot;
  r_moved : list MoveRecord;
  calls : list Z
}.

Definition loop_init : LoopState := mkLoop [] [] [] [] [].

(** [set.add]. *)
Definition set_add (x : Z) (s : list Z) : list Z :=
  if z_mem x s then s else s ++ [x].

(** The classification branch shared by both loops: [_handle_submission_move]
    and the three [+=]. *)
Definition add_move (ls : LoopState) (p : Z) (old_slots new_slots : list TalkSlot)
    : LoopState :=
  let '(new, canceled, moved) := _handle_submission_move p old_slots new_slots in
  mkLoop (handled_submissions ls) (r_new ls ++ new) (r_canceled ls ++ canceled)
         (r_moved ls ++ moved) (calls ls).

(** Finishing an iteration: [handled_submissions.add(entry.submission)]. *)
Definition finish_entry (ls : LoopState) (p : Z) : LoopState :=
  mkLoop (set_add p (handled_submissions ls)) (r_new ls) (r_canceled ls)
         (r_moved ls) (calls ls ++ [p]).

(** Body of [for entry in moved_or_missing]. *)
Definition step_missing (old_slots new_slots : list TalkSlot) (new_submissions : list Z)
    (ls : LoopState) (entry : SlotKey) : LoopState :=
  let '(p, _, _) := entry in
  if z_mem p (handled_submissions ls) then ls
  else
    let ls :=
      if negb (z_mem p new_submissions) then
        mkLoop (handled_submissions ls) (r_new ls)
               (r_canceled ls ++ filter_submission p old_slots) (r_moved ls) (calls ls)
      else add_move ls p old_slots new_slots in
    finish_entry ls p.

(** Body of [for entry in moved_or_new]. *)
Definition step_new (old_slots new_slots : list TalkSlot) (old_submissions : list Z)
    (ls : LoopState) (entry : SlotKey) : LoopState :=
  let '(p, _, _) := entry in
  if z_mem p (handled_submissions ls) then ls
  else
    let ls :=
      if negb (z_mem p old_submissions) then
        mkLoop (handled_submissions ls) (r_new ls ++ filter_submission p new_slots)
               (r_canceled ls) (r_moved ls) (calls ls)
      else add_move ls p old_slots new_slots in
    finish_entry ls p.

(** The two loops, for given iteration orders of the two set differences. *)
Definition run_loops (old_slots new_slots : list TalkSlot)
    (old_submissions new_submissions : list Z)
    (moved_or_missing moved_or_new : list SlotKey) : LoopState :=
  let ls := fold_left (step_missing old_slots new_slots new_submissions)
                      moved_or_missing loop_init in
  fold_left (step_new old_slots new_slots old_submissions) moved_or_new ls.

Definition set_diff (a b : list SlotKey) : list SlotKey :=
  filter (fun k => negb (key_mem k b)) a.

(** The [update] part of [compare_schedule_with_predecessor], on
    [old_slots = previous_schedule.scheduled_talks] and
    [new_slots = schedule.scheduled_talks]; also returns the loop state. *)
Definition compare_slots_loop (old_slots new_slots : list TalkSlot) : LoopState :=
  let old_slot_set := dedup key_eqb (map slot_key old_slots) in
  let new_slot_set := dedup key_eqb (map slot_key new_slots) in
  let old_submissions := dedup Z.eqb (map submission old_slots) in
  let new_submissions := dedup Z.eqb (map submission new_slots) in
  let moved_or_missing := set_diff old_slot_set new_slot_set in
  let moved_or_new := set_diff new_slot_set old_slot_set in
  run_loops old_slots new_slots old_submissions new_submissions
            moved_or_missing moved_or_new.

Definition compare_slots (old_slots new_slots : list TalkSlot) : ChangeSet :=
  let ls := compare_slots_loop old_slots new_slots in
  mkChanges (length (r_new ls) + length (r_canceled ls) + length (r_moved ls))
            update (r_new ls) (r_canceled ls) (r_moved ls).

(** The initial [result] with [action] set to ['create']. *)
Definition create_result : ChangeSet := mkChanges 0 create [] [] [].

(** ** The store *)
(** The database rows the code reads and writes.  [sub_state] and
    [speakers_of] are the [Submission] side ([submission.state],
    [submission.speakers]); [next_pk] is the next auto-increment key. *)
Record Store := mkStore {
  schedules : list Schedule;
  talk_slots : list TalkSlot;
  sub_state : Z -> SubmissionState;
  speakers_of : Z -> list Z;
  next_pk : Z
}.

(** [schedule.talks]. *)
Definition talks (st : Store) (schedule_pk : Z) : list TalkSlot :=
  filter (fun t => Z.eqb (slot_schedule t) schedule_pk) (talk_slots st).

(** [Schedule.scheduled_talks]: [filter(room__isnull=False,
    start__isnull=False, is_visible=True)
    .exclude(submission__state=DELETED)]. *)
Definition scheduled_talks (st : Store) (s : Schedule) : list TalkSlot :=
  filter (fun t =>
            match room t, start t with
            | Some _, Some _ =>
                is_visible t && negb (state_eqb (sub_state st (submission t)) DELETED)
            | _, _ => false
            end)
         (talks st (sched_pk s)).

(** [order_by('-published')] compares [published] descending; where NULLs
    go depends on the database ([nulls_first = true] on PostgreSQL, [false]
    on SQLite and MySQL).  [before a b]: [a] sorts strictly before [b]. *)
Definition desc_published_before (nulls_first : bool) (a b : option Z) : bool :=
  match a, b with
  | Some x, Some y => y <? x
  | None, Some _ => nulls_first
  | Some _, None => negb nulls_first
  | None, None => false
  end.

(** [.order_by('-published').first()]: the first row of the ordered
    queryset; among equal keys the store's order is kept. *)
Definition first_by_published (nulls_first : bool) (qs : list Schedule) : option Schedule :=
  fold_left (fun acc s =>
               match acc with
               | None => Some s
               | Some a =>
                   if desc_published_before nulls_first (published s) (published a)
                   then Some s else Some a
               end) qs None.

(** [Schedule.previous_schedule]; a [datetime] is always truthy, so
    [if self.published] tests for [None]; [published__lt] never matches a
    NULL column. *)
Definition previous_schedule (nulls_first : bool) (all : list Schedule) (self : Schedule)
    : option Schedule :=
  let queryset := filter (fun s => Z.eqb (sched_event s) (sched_event self)
                                   && negb (Z.eqb (sched_pk s) (sched_pk self))) all in
  let queryset :=
    match published self with
    | Some p => filter (fun s => match published s with
                                 | Some q => q <? p
                                 | None => false
                                 end) queryset
    | None => queryset
    end in
  first_by_published nulls_first queryset.

(** [compare_schedule_with_predecessor(schedule)]; a model instance is
    truthy, so [if not schedule.previous_schedule] tests for [None]. *)
Definition compare_schedule_with_predecessor (nulls_first : bool) (st : Store)
    (schedule : Schedule) : ChangeSet :=
  match previous_schedule nulls_first (schedules st) schedule with
  | None => create_result
  | Some prev => compare_slots (scheduled_talks st prev) (scheduled_talks st schedule)
  end.

(** ** Notification builder: [speakers_with_changed_slots] *)
Record SpeakerChanges := mkSpeakerChanges {
  sp_create : list TalkSlot;
  sp_update : list MoveRecord
}.

(** The function's return value: the literal [[]] of the early return, or a
    dict (a dict comprehension or the [defaultdict]) from speaker to its
    ['create']/['update'] lists. *)
Inductive SpeakersResult :=
| EmptyPyList
| SpeakerDict (d : list (Z * SpeakerChanges)).

(** [speakers[speaker]['create'].append(x)] on the [defaultdict]. *)
Fixpoint dd_append_create (sp : Z) (x : TalkSlot) (d : list (Z * SpeakerChanges))
    : list (Z * SpeakerChanges) :=
  match d with
  | [] => [(sp, mkSpeakerChanges [x] [])]
  | (k, v) :: r =>
      if Z.eqb k sp then (k, mkSpeakerChanges (sp_create v ++ [x]) (sp_update v)) :: r
      else (k, v) :: dd_append_create sp x r
  end.

(** [speakers[speaker]['update'].append(x)] on the [defaultdict]. *)
Fixpoint dd_append_update (sp : Z) (x : MoveRecord) (d : list (Z * SpeakerChanges))
    : list (Z * SpeakerChanges) :=
  match d with
  | [] => [(sp, mkSpeakerChanges [] [x])]
  | (k, v) :: r =>
      if Z.eqb k sp then (k, mkSpeakerChanges (sp_create v) (sp_update v ++ [x])) :: r
      else (k, v) :: dd_append_update sp x r
  end.

(** The body of [speakers_with_changed_slots] after [changes] is computed. *)
Definition speakers_from_changes (st : Store) (schedule : Schedule) (changes : ChangeSet)
    : SpeakersResult :=
  match action changes with
  | create =>
      let ts := talks st (sched_pk schedule) in
      let users := dedup Z.eqb (flat_map (fun t => speakers_of st (submission t)) ts) in
      SpeakerDict (map (fun speaker =>
        (speaker, mkSpeakerChanges
                    (filter (fun t => z_mem speaker (speakers_of st (submission t))) ts)
                    [])) users)
  | update =>
      if Nat.eqb (count changes) (length (canceled_talks changes)) then EmptyPyList
      else
        let speakers :=
          fold_left (fun d new_talk =>
                       fold_left (fun d speaker => dd_append_create speaker new_talk d)
                                 (speakers_of st (submission new_talk)) d)
                    (new_talks changes) [] in
        let speakers :=
          fold_left (fun d moved_talk =>
                       fold_left (fun d speaker => dd_append_update speaker moved_talk d)
                                 (speakers_of st (mv_submission moved_talk)) d)
                    (moved_talks changes) speakers in
        SpeakerDict speakers
  end.

Definition speakers_with_changed_slots (nulls_first : bool) (st : Store) (schedule : Schedule)
    : SpeakersResult :=
  speakers_from_changes st schedule (compare_schedule_with_predecessor nulls_first st schedule).

(** ** Version manager: [freeze_schedule] and [Schedule.unfreeze] *)
(** The exception classes a call can raise: the code raises the built-in
    [Exception]; [ValidationError] is Django's. *)
Inductive ExcKind := PyException | ValidationError.

Inductive Outcome (A : Type) :=
| Raised (k : ExcKind) (msg : string)
| Returned (v : A).
Arguments Raised {A}.
Arguments Returned {A}.

(** Python truthiness of an optional string column or argument. *)
Definition truthy (s : option string) : bool :=
  match s with
  | Some v => negb (String.eqb v "")
  | None => false
  end.

(** Modelled from the spec: [TalkSlot.copy_to_schedule(target, save=False)]
    (the [TalkSlot] model is not part of the sources); "deep-copy: new
    identity, same submission/room/start/end/visibility". *)
Definition copy_to_schedule (t : TalkSlot) (target pk : Z) : TalkSlot :=
  mkSlot pk target (submission t) (room t) (start t) (end_ t) (is_visible t).

(** The loop [for talk in ...: talks.append(talk.copy_to_schedule(...))]
    followed by [bulk_create]: fresh keys [pk], [pk + 1], ... *)
Fixpoint copy_all (target pk : Z) (l : list TalkSlot) : list TalkSlot :=
  match l with
  | [] => []
  | t :: r => copy_to_schedule t target pk :: copy_all target (pk + 1) r
  end.

(** [schedule.save(update_fields=['published', 'version'])]. *)
Definition save_schedule (s : Schedule) (l : list Schedule) : list Schedule :=
  map (fun r => if Z.eqb (sched_pk r) (sched_pk s) then s else r) l.

(** [queryset.filter(...).update(is_visible=v)] on the rows of one schedule
    that satisfy [pred]. *)
Definition update_visibility (schedule_pk : Z) (pred : TalkSlot -> bool) (v : bool)
    (l : list TalkSlot) : list TalkSlot :=
  map (fun t => if Z.eqb (slot_schedule t) schedule_pk && pred t
                then mkSlot (slot_pk t) (slot_schedule t) (submission t) (room t)
                            (start t) (end_ t) v
                else t) l.

Definition placed_and_confirmed (st : Store) (t : TalkSlot) : bool :=
  match start t with
  | Some _ => state_eqb (sub_state st (submission t)) CONFIRMED
  | None => false
  end.

(** [freeze_schedule(schedule=..., name=..., user=..., notify_speakers=...)].
    The audit entry ([log_action]), the queued mails of
    [create_release_notifications] and the export task touch neither
    schedules nor slots and are not part of the store. *)
Definition freeze_schedule (st : Store) (schedule : Schedule) (name : option string)
    (now : Z) (notify_speakers : bool) : Outcome (Schedule * Schedule) * Store :=
  if existsb (fun r => opt_eqb String.eqb name (Some r)) ["wip"; "latest"]%string then
    (Raised PyException "Cannot use reserved name for schedule version.", st)
  else if truthy (version schedule) then
    (Raised PyException "Cannot freeze schedule version: already versioned.", st)
  else if negb (truthy name) then
    (Raised PyException "Cannot create schedule version without a version name.", st)
  else
    let schedule := mkSchedule (sched_pk schedule) (sched_event schedule) name (Some now) in
    let scheds := save_schedule schedule (schedules st) in
    let wip_schedule := mkSchedule (next_pk st) (sched_event schedule) None None in
    let scheds := scheds ++ [wip_schedule] in
    let slots := update_visibility (sched_pk schedule)
                   (fun t => placed_and_confirmed st t && negb (is_visible t)) true
                   (talk_slots st) in
    let slots := update_visibility (sched_pk schedule)
                   (fun t => is_visible t && negb (placed_and_confirmed st t)) false
                   slots in
    let frozen_talks := filter (fun t => Z.eqb (slot_schedule t) (sched_pk schedule)) slots in
    let copies := copy_all (sched_pk wip_schedule) (next_pk st + 1) frozen_talks in
    let st' := mkStore scheds (slots ++ copies) (sub_state st) (speakers_of st)
                       (next_pk st + 1 + Z.of_nat (length copies)) in
    (Returned (schedule, wip_schedule), st').

(** Modelled from the spec: [Event.wip_schedule] (the [Event] model is not
    part of the sources): the event's working draft, its schedule with
    [version = null].  It is a cached property ([unfreeze] and
    [freeze_schedule] invalidate it with [del]), so [unfreeze] reads it once. *)
Definition wip_schedule (all : list Schedule) (event : Z) : option Schedule :=
  find (fun s => Z.eqb (sched_event s) event && match version s with None => true | Some _ => false end) all.

Definition room_eqb (a b : Room) : bool :=
  Z.eqb (room_pk a) (room_pk b) && String.eqb (room_name a) (room_name b)
  && String.eqb (speaker_info a) (speaker_info b).

Definition slot_eqb (a b : TalkSlot) : bool :=
  Z.eqb (slot_pk a) (slot_pk b) && Z.eqb (slot_schedule a) (slot_schedule b)
  && Z.eqb (submission a) (submission b) && opt_eqb room_eqb (room a) (room b)
  && opt_eqb Z.eqb (start a) (start b) && opt_eqb Z.eqb (end_ a) (end_ b)
  && Bool.eqb (is_visible a) (is_visible b).

(** SQL [UNION] of two querysets: distinct rows. *)
Definition qs_union (a b : list TalkSlot) : list TalkSlot := dedup slot_eqb (a ++ b).

(** [Schedule.unfreeze(user)].  Without a working draft of the event (the
    spec's data model always has one) the model raises. *)
Definition unfreeze (st : Store) (self : Schedule) : Outcome (Schedule * Schedule) * Store :=
  if negb (truthy (version self)) then
    (Raised PyException "Cannot unfreeze schedule version: not released yet.", st)
  else
    match wip_schedule (schedules st) (sched_event self) with
    | None => (Raised PyException "no working draft", st)
    | Some old_wip =>
        let submission_ids := map submission (talks st (sched_pk self)) in
        let ts := qs_union
                    (filter (fun t => negb (z_mem (submission t) submission_ids))
                            (talks st (sched_pk old_wip)))
                    (talks st (sched_pk self)) in
        let wip := mkSchedule (next_pk st) (sched_event self) None None in
        let new_talks := copy_all (sched_pk wip) (next_pk st + 1) ts in
        let slots := talk_slots st ++ new_talks in
        let slots := filter (fun t => negb (Z.eqb (slot_schedule t) (sched_pk old_wip))) slots in
        let scheds := filter (fun s => negb (Z.eqb (sched_pk s) (sched_pk old_wip)))
                             (schedules st ++ [wip]) in
        (Returned (self, wip),
         mkStore scheds slots (sub_state st) (speakers_of st)
                 (next_pk st + 1 + Z.of_nat (length new_talks)))
    end.

(** ** The move matching as the spec states it *)
(** Slots of [side] with no exact (submission, room, start) counterpart in
    [other]. *)
Definition unmatched (side other : list TalkSlot) : list TalkSlot :=
  filter (fun s => negb (key_mem (slot_key s) (map slot_key other))) side.

(** Positional pairing of two lists into move records. *)
Definition pair_moves (a b : list TalkSlot) : list MoveRecord :=
  map (fun '(o, n) => mk_move o n) (combine a b).

(** Steps 3 of the spec's move-matching algorithm on the unmatched lists
    [a] (old) and [b] (new); returns [(new, canceled, moved)]. *)
Definition move_matching_spec (a b : list TalkSlot)
    : list TalkSlot * list TalkSlot * list MoveRecord :=
  if Nat.ltb (length b) (length a) then
    let d := (length a - length b)%nat in ([], firstn d a, pair_moves (skipn d a) b)
  else if Nat.ltb (length a) (length b) then
    let d := (length b - length a)%nat in (firstn d b, [], pair_moves a (skipn d b))
  else ([], [], pair_moves a b).

(** ** Shape of the comparison loops *)
(** Both loop bodies have this shape: skip a handled submission, otherwise
    classify it with [g] and mark it handled. *)
Definition loop_step (g : LoopState -> Z -> LoopState) (ls : LoopState) (entry : SlotKey)
    : LoopState :=
  let '(p, _, _) := entry in
  if z_mem p (handled_submissions ls) then ls else finish_entry (g ls p) p.

Definition classify_missing (old_slots new_slots : list TalkSlot) (new_submissions : list Z)
    (ls : LoopState) (p : Z) : LoopState :=
  if negb (z_mem p new_submissions) then
    mkLoop (handled_submissions ls) (r_new ls)
           (r_canceled ls ++ filter_submission p old_slots) (r_moved ls) (calls ls)
  else add_move ls p old_slots new_slots.

Definition classify_new (old_slots new_slots : list TalkSlot) (old_submissions : list Z)
    (ls : LoopState) (p : Z) : LoopState :=
  if negb (z_mem p old_submissions) then
    mkLoop (handled_submissions ls) (r_new ls ++ filter_submission p new_slots)
           (r_canceled ls) (r_moved ls) (calls ls)
  else add_move ls p old_slots new_slots.

(** What the loops append never involves a placement present on both
    sides. *)
Definition diff_entry_ok (old new : list TalkSlot) (ls : LoopState) : Prop :=
  (forall x, In x (r_new ls) \/ In x (r_canceled ls) ->
     ~ (In (slot_key x) (map slot_key old) /\ In (slot_key x) (map slot_key new))) /\
  (forall mv, In mv (r_moved ls) ->
     exists o n, In o old /\ In n new /\ mv = mk_move o n /\
       ~ In (slot_key o) (map slot_key new) /\ ~ In (slot_key n) (map slot_key old)).

(** What a copy of a slot keeps: everything but its key and its schedule. *)
Definition slot_content (t : TalkSlot)
    : Z * option Room * option Z * option Z * bool :=
  (submission t, room t, start t, end_ t, is_visible t).

(** ** The [-published] order *)
Ltac ltb_facts :=
  repeat match goal with
         | H : (_ <? _) = true |- _ => apply Z.ltb_lt in H
         | H : (_ <? _) = false |- _ => apply Z.ltb_ge in H
         | |- (_ <? _) = true => apply Z.ltb_lt
         | |- (_ <? _) = false => apply Z.ltb_ge
         end.

Definition first_step (nf : bool) (acc : option Schedule) (s : Schedule) : option Schedule :=
  match acc with
  | None => Some s
  | Some a => if desc_published_before nf (published s) (published a) then Some s else Some a
  end.

(** A predecessor candidate of [self] in the words of C10: another
    published schedule of the same event, published strictly before [self]
    when [self] is published. *)
Definition predecessor_candidate (all : list Schedule) (self s : Schedule) : Prop :=
  In s all /\ sched_event s = sched_event self /\ sched_pk s <> sched_pk self /\
  exists q, published s = Some q /\
            match published self with Some p => q < p | None => True end.

(** [r] is the candidate with the greatest [published], or [None] when
    there is no candidate. *)
Definition latest_candidate (all : list Schedule) (self : Schedule) (r : option Schedule)
    : Prop :=
  match r with
  | None => forall s, ~ predecessor_candidate all self s
  | Some s =>
      predecessor_candidate all self s /\
      forall s', predecessor_candidate all self s' ->
        exists q q', published s = Some q /\ published s' = Some q' /\ q' <= q
  end.

(** ** A small event for concrete runs *)
Definition ex_room : Room := mkRoom 1 "Hall" "Enter from the back".

(** Version [v1] of event 1, published at 100, and its working draft. *)
Definition ex_v1 : Schedule := mkSchedule 1 1 (Some "v1"%string) (Some 100).

Definition ex_wip : Schedule := mkSchedule 2 1 None None.

(** Talk 5 is in [v1]; the draft has talk 5 at the same place, an
    unconfirmed talk 6 marked visible and a confirmed talk 7 marked hidden. *)
Definition ex_store : Store :=
  mkStore [ex_v1; ex_wip]
          [mkSlot 10 1 5 (Some ex_room) (Some 1000) (Some 1100) true;
           mkSlot 11 2 5 (Some ex_room) (Some 1000) (Some 1100) true;
           mkSlot 12 2 6 (Some ex_room) (Some 1200) (Some 1300) true;
           mkSlot 13 2 7 (Some ex_room) (Some 1400) (Some 1500) false]
          (fun sub => if Z.eqb sub 6 then SUBMITTED else CONFIRMED)
          (fun sub => [100 + sub])
          20.

(** The same event after talk 5 was taken out of the draft. *)
Definition ex_cancel_store : Store :=
  mkStore [ex_v1; ex_wip]
          [mkSlot 10 1 5 (Some ex_room) (Some 1000) (Some 1100) true]
          (fun _ => CONFIRMED)
          (fun sub => [100 + sub])
          20.

(** The draft of [ex_store] once frozen as [v2] at 200, and the new draft. *)
Definition ex_v2 : Schedule := mkSchedule 2 1 (Some "v2"%string) (Some 200).

Definition ex_wip2 : Schedule := mkSchedule 20 1 None None.

Definition ex_freeze : Outcome (Schedule * Schedule) * Store :=
  freeze_schedule ex_store ex_wip (Some "v2"%string) 200 true.

Lemma state_eqb_eq a b : state_eqb a b = true <-> a = b.
Proof. destruct a, b; simpl; split; congruence. Qed.

Lemma opt_eqb_eq {A} (eqb : A -> A -> bool) :
  (forall a b, eqb a b = true <-> a = b) ->
  forall x y, opt_eqb eqb x y = true <-> x = y.
Proof.
  intros Heq [a|] [b|]; simpl; split; intro H; try congruence.
  - f_equal; apply Heq; exact H.
  - apply Heq; congruence.
Qed.

Lemma key_eqb_eq a b : key_eqb a b = true <-> a = b.
Proof.
  destruct a as [[s1 r1] t1], b as [[s2 r2] t2]; unfold key_eqb.
  rewrite !andb_true_iff, Z.eqb_eq,
    (opt_eqb_eq Z.eqb Z.eqb_eq), (opt_eqb_eq Z.eqb Z.eqb_eq).
  split; [intros [[-> ->] ->]; reflexivity | intro H; inversion H; auto].
Qed.

Lemma key_mem_In k l : key_mem k l = true <-> In k l.
Proof.
  unfold key_mem; rewrite existsb_exists; split.
  - intros [x [Hx E]]; apply key_eqb_eq in E; subst; exact Hx.
  - intro H; exists k; split; [exact H | apply key_eqb_eq; reflexivity].
Qed.

Lemma z_mem_In x l : z_mem x l = true <-> In x l.
Proof.
  unfold z_mem; rewrite existsb_exists; split.
  - intros [y [Hy E]]; apply Z.eqb_eq in E; subst; exact Hy.
  - intro H; exists x; split; [exact H | apply Z.eqb_refl].
Qed.

(** ** [Schedule.warnings], [Schedule.url_version] and [Schedule.slots] *)
Record ScheduleWarnings := mkWarnings {
  talk_warnings : list TalkSlot;
  unscheduled : list TalkSlot;
  unconfirmed : list TalkSlot;
  no_track : list TalkSlot
}.

(** One iteration of [for talk in self.talks.all()].  [TalkSlot.warnings]
    (a model property not in the sources) is the input [has_warnings], its
    truthiness; [use_tracks] is the event setting and [has_track] the
    truthiness of [talk.submission.track].  A [datetime] is truthy, so
    [not talk.start] tests for [None]. *)
Definition warn_step (st : Store) (has_warnings : TalkSlot -> bool) (use_tracks : bool)
    (has_track : Z -> bool) (w : ScheduleWarnings) (talk : TalkSlot) : ScheduleWarnings :=
  let w := match start talk with
           | None => mkWarnings (talk_warnings w) (unscheduled w ++ [talk])
                                (unconfirmed w) (no_track w)
           | Some _ => if has_warnings talk
                       then mkWarnings (talk_warnings w ++ [talk]) (unscheduled w)
                                       (unconfirmed w) (no_track w)
                       else w
           end in
  let w := if negb (state_eqb (sub_state st (submission talk)) CONFIRMED)
           then mkWarnings (talk_warnings w) (unscheduled w) (unconfirmed w ++ [talk]) (no_track w)
           else w in
  if use_tracks && negb (has_track (submission talk))
  then mkWarnings (talk_warnings w) (unscheduled w) (unconfirmed w) (no_track w ++ [talk])
  else w.

Definition warnings (st : Store) (has_warnings : TalkSlot -> bool) (use_tracks : bool)
    (has_track : Z -> bool) (s : Schedule) : ScheduleWarnings :=
  fold_left (warn_step st has_warnings use_tracks has_track) (talks st (sched_pk s))
            (mkWarnings [] [] [] []).

(** [urllib.parse.quote(string, safe='/')] on the UTF-8 bytes of the
    string: letters, digits, [_.-~] and [/] are kept, every other byte
    becomes [%XX] with upper-case hex digits. *)
Definition always_safe (c : Ascii.ascii) : bool :=
  let n := Ascii.nat_of_ascii c in
  (Nat.leb 65 n && Nat.leb n 90) || (Nat.leb 97 n && Nat.leb n 122)
  || (Nat.leb 48 n && Nat.leb n 57) || existsb (Nat.eqb n) [95; 46; 45; 126]%nat.

(** [safe='/'] (byte 47). *)
Definition quote_safe (c : Ascii.ascii) : bool :=
  always_safe c || Nat.eqb (Ascii.nat_of_ascii c) 47.

Definition hex_digit (d : nat) : Ascii.ascii :=
  if Nat.ltb d 10 then Ascii.ascii_of_nat (48 + d) else Ascii.ascii_of_nat (55 + d).

(** Byte 37 is [%]. *)
Definition quote_byte (c : Ascii.ascii) : string :=
  if quote_safe c then String c EmptyString
  else let n := Ascii.nat_of_ascii c in
       String (Ascii.ascii_of_nat 37)
         (String (hex_digit (Nat.div n 16)) (String (hex_digit (Nat.modulo n 16)) EmptyString)).

Fixpoint quote (s : string) : string :=
  match s with
  | EmptyString => EmptyString
  | String c r => quote_byte c ++ quote r
  end.

(** [quote(self.version) if self.version else 'wip']. *)
Definition url_version (s : Schedule) : string :=
  match version s with
  | Some v => if String.eqb v "" then "wip"%string else quote v
  | None => "wip"%string
  end.

(** [Schedule.slots]: the submissions with a slot among the scheduled
    talks, as the set of their keys. *)
Definition slots (st : Store) (s : Schedule) : list Z :=
  dedup Z.eqb (map submission (scheduled_talks st s)).

(** Modelled from the spec: [Event.current_schedule] (the [Event] model is
    not part of the sources): "the Schedule with the latest non-null
    [published] among versioned schedules"; among equal times the store's
    first row. *)
Definition current_schedule (all : list Schedule) (event : Z) : option Schedule :=
  first_by_published true
    (filter (fun s => Z.eqb (sched_event s) event
                      && match version s with Some _ => true | None => false end
                      && match published s with Some _ => true | None => false end) all).

(** [Schedule.is_archived]; model instances compare by key. *)
Definition is_archived (all : list Schedule) (s : Schedule) : bool :=
  if negb (truthy (version s)) then false
  else match current_schedule all (sched_event s) with
       | Some c => negb (Z.eqb (sched_pk c) (sched_pk s))
       | None => true
       end.






(** ** Reading the speaker dictionary *)
(** [d.get(speaker)] on the dict returned by [speakers_with_changed_slots]. *)
Fixpoint dd_get (sp : Z) (d : list (Z * SpeakerChanges)) : option SpeakerChanges :=
  match d with
  | [] => None
  | (k, v) :: r => if Z.eqb k sp then Some v else dd_get sp r
  end.

(** Does speaker [sp] speak in submission [p]. *)
Definition speaks (st : Store) (sp p : Z) : bool := z_mem sp (speakers_of st p).

(** ** Working drafts *)
(** The working drafts of an event: its schedules with [version = null], the
    rows [Event.wip_schedule] picks from. *)
Definition drafts (all : list Schedule) (event : Z) : list Schedule :=
  filter (fun s => Z.eqb (sched_event s) event && match version s with None => true | Some _ => false end) all.

(** ** Coverage of the comparison loops *)

(** Every changed placement of submission [p] is reported in [ls]: an old
    slot whose key is not among the new keys is canceled or the old side of
    a move, a new slot whose key is not among the old keys is new or the new
    side of a move. *)
Definition covered (old new : list TalkSlot) (p : Z) (ls : LoopState) : Prop :=
  (forall o, In o old -> submission o = p -> ~ In (slot_key o) (map slot_key new) ->
     In o (r_canceled ls) \/ exists n, In n new /\ In (mk_move o n) (r_moved ls)) /\
  (forall n, In n new -> submission n = p -> ~ In (slot_key n) (map slot_key old) ->
     In n (r_new ls) \/ exists o, In o old /\ In (mk_move o n) (r_moved ls)).

(** The loop state only grows: results and calls are appended to. *)
Definition grows (ls ls' : LoopState) : Prop :=
  incl (r_new ls) (r_new ls') /\ incl (r_canceled ls) (r_canceled ls') /\
  incl (r_moved ls) (r_moved ls') /\ incl (calls ls) (calls ls').

(** ** Lemmas about the move matching *)
Lemma existsb_same_slot s l :
  existsb (fun o => is_same_slot s o) l = key_mem (slot_key s) (map slot_key l).
Proof.
  induction l as [|o l IH]; simpl; [reflexivity|].
  unfold key_mem in *; simpl; f_equal; exact IH.
Qed.

Lemma handle_unmatched p old new :
  _handle_submission_move p old new =
  move_matching_spec (unmatched (filter_submission p old) (filter_submission p new))
                     (unmatched (filter_submission p new) (filter_submission p old)).
Proof.
  unfold _handle_submission_move, move_matching_spec, unmatched.
  set (A := filter_submission p old); set (B := filter_submission p new).
  rewrite (filter_ext _ (fun s => negb (key_mem (slot_key s) (map slot_key B))))
    by (intro s; f_equal; apply existsb_same_slot).
  rewrite (filter_ext (fun slot => negb (existsb _ A))
             (fun s => negb (key_mem (slot_key s) (map slot_key A))))
    by (intro s; f_equal; apply existsb_same_slot).
  set (a := filter _ A); set (b := filter _ B).
  unfold pair_moves.
  assert (Hmap : forall x y : list TalkSlot,
             map (fun move => mk_move (fst move) (snd move)) (combine x y)
             = map (fun '(o, n) => mk_move o n) (combine x y))
    by (intros; apply map_ext; intros []; reflexivity).
  destruct (Nat.ltb (length b) (length a)) eqn:H1;
    [apply Nat.ltb_lt in H1 | apply Nat.ltb_ge in H1].
  - replace (0 <? Z.of_nat (length a) - Z.of_nat (length b)) with true by lia.
    replace (Z.to_nat (Z.of_nat (length a) - Z.of_nat (length b)))
      with (length a - length b)%nat by lia.
    rewrite Hmap; reflexivity.
  - replace (0 <? Z.of_nat (length a) - Z.of_nat (length b)) with false by lia.
    destruct (Nat.ltb (length a) (length b)) eqn:H2;
      [apply Nat.ltb_lt in H2 | apply Nat.ltb_ge in H2].
    + replace (Z.of_nat (length a) - Z.of_nat (length b) <? 0) with true by lia.
      replace (Z.to_nat (- (Z.of_nat (length a) - Z.of_nat (length b))))
        with (length b - length a)%nat by lia.
      rewrite Hmap; reflexivity.
    + replace (Z.of_nat (length a) - Z.of_nat (length b) <? 0) with false by lia.
      rewrite Hmap; reflexivity.
Qed.

Lemma pair_moves_length a b : length (pair_moves a b) = Nat.min (length a) (length b).
Proof. unfold pair_moves; rewrite length_map, length_combine; reflexivity. Qed.

Lemma In_firstn_l {A} n (l : list A) x : In x (firstn n l) -> In x l.
Proof. intro H; rewrite <- (firstn_skipn n l); apply in_or_app; left; exact H. Qed.

Lemma In_skipn_l {A} n (l : list A) x : In x (skipn n l) -> In x l.
Proof. intro H; rewrite <- (firstn_skipn n l); apply in_or_app; right; exact H. Qed.

Lemma pair_moves_in a b mv :
  In mv (pair_moves a b) -> exists o n, In o a /\ In n b /\ mv = mk_move o n.
Proof.
  unfold pair_moves; rewrite in_map_iff; intros [[o n] [<- Hin]].
  exists o, n; split; [eapply in_combine_l; eauto | split; [eapply in_combine_r; eauto | reflexivity]].
Qed.

(** Everything [move_matching_spec] returns comes from its inputs. *)
Lemma move_matching_spec_parts a b :
  let '(n, c, m) := move_matching_spec a b in
  incl n b /\ incl c a /\
  (forall mv, In mv m -> exists o n', In o a /\ In n' b /\ mv = mk_move o n').
Proof.
  unfold move_matching_spec.
  destruct (Nat.ltb (length b) (length a)); [|destruct (Nat.ltb (length a) (length b))];
    (split; [|split]);
    try (intros x Hx; solve [destruct Hx | eapply In_firstn_l; eauto]);
    intros mv Hmv; apply pair_moves_in in Hmv as (o & n' & Ho & Hn & ->);
    exists o, n'; repeat split; eauto using In_skipn_l.
Qed.

(** A slot left unmatched for submission [p] is a slot of [p] of its side
    whose key does not occur at all on the other side. *)
Lemma unmatched_spec p l1 l2 x :
  In x (unmatched (filter_submission p l1) (filter_submission p l2)) ->
  In x l1 /\ submission x = p /\ ~ In (slot_key x) (map slot_key l2).
Proof.
  unfold unmatched, filter_submission; rewrite filter_In, filter_In, Z.eqb_eq, negb_true_iff.
  intros [[Hx Hp] Hk]; repeat split; auto.
  intro Hin; apply in_map_iff in Hin as [y [Hy Hyin]].
  assert (Hsub : submission y = p).
  { unfold slot_key in Hy. inversion Hy; congruence. }
  assert (In (slot_key x) (map slot_key (filter (fun s => submission s =? p) l2))).
  { rewrite <- Hy; apply in_map, filter_In; split; [exact Hyin | apply Z.eqb_eq; exact Hsub]. }
  apply key_mem_In in H; congruence.
Qed.

Lemma dedup_In {A} (eqb : A -> A -> bool) (Heq : forall a b, eqb a b = true <-> a = b) l x :
  In x (dedup eqb l) <-> In x l.
Proof.
  induction l as [|y l IH]; simpl; [tauto|].
  destruct (existsb (eqb y) l) eqn:E; simpl; rewrite IH; [|tauto].
  apply existsb_exists in E as [z [Hz Ez]]; apply Heq in Ez; subst.
  split; [tauto | intros [->|H]; auto].
Qed.

Lemma set_diff_In a b k : In k (set_diff a b) <-> In k a /\ ~ In k b.
Proof.
  unfold set_diff; rewrite filter_In, negb_true_iff.
  split; intros [H1 H2]; split; auto.
  - intro H; apply key_mem_In in H; congruence.
  - destruct (key_mem k b) eqn:E; [apply key_mem_In in E; contradiction | reflexivity].
Qed.

Lemma step_missing_shape old new ns ls e :
  step_missing old new ns ls e = loop_step (classify_missing old new ns) ls e.
Proof. destruct e as [[p r] t]; reflexivity. Qed.

Lemma step_new_shape old new os ls e :
  step_new old new os ls e = loop_step (classify_new old new os) ls e.
Proof. destruct e as [[p r] t]; reflexivity. Qed.

Lemma add_move_ghost ls p old new :
  handled_submissions (add_move ls p old new) = handled_submissions ls /\
  calls (add_move ls p old new) = calls ls.
Proof.
  unfold add_move; destruct (_handle_submission_move p old new) as [[n c] m]; auto.
Qed.

Lemma classify_missing_ghost old new ns ls p :
  handled_submissions (classify_missing old new ns ls p) = handled_submissions ls /\
  calls (classify_missing old new ns ls p) = calls ls.
Proof. unfold classify_missing; destruct (negb _); [auto | apply add_move_ghost]. Qed.

Lemma classify_new_ghost old new os ls p :
  handled_submissions (classify_new old new os ls p) = handled_submissions ls /\
  calls (classify_new old new os ls p) = calls ls.
Proof. unfold classify_new; destruct (negb _); [auto | apply add_move_ghost]. Qed.

Section LoopShape.
Variable f : LoopState -> SlotKey -> LoopState.
Variable g : LoopState -> Z -> LoopState.
Hypothesis Hf : forall ls e, f ls e = loop_step g ls e.

(** The classification branch runs once per submission: the handled set
    and the record of classification calls stay equal and duplicate-free. *)
Lemma loop_calls
    (Hg : forall ls p, handled_submissions (g ls p) = handled_submissions ls /\
                       calls (g ls p) = calls ls) :
  forall entries ls0,
    handled_submissions ls0 = calls ls0 -> NoDup (calls ls0) ->
    let ls := fold_left f entries ls0 in
    handled_submissions ls = calls ls /\ NoDup (calls ls) /\
    (forall p, In p (calls ls) <->
               In p (calls ls0) \/ exists e, In e entries /\ fst (fst e) = p).
Proof.
  induction entries as [|e entries IH]; intros ls0 H0 H1; simpl.
  - split; [exact H0 | split; [exact H1 | intro p; split; [auto | intros [H|[e [[] _]]]; exact H]]].
  - rewrite Hf; destruct e as [[p r] t]; unfold loop_step.
    destruct (z_mem p (handled_submissions ls0)) eqn:Hmem.
    + destruct (IH ls0 H0 H1) as (Ha & Hb & Hc); split; [exact Ha | split; [exact Hb|]].
      intro q; rewrite Hc; split.
      * intros [H|[e' [He' Hq]]]; [left; exact H | right; exists e'; auto].
      * intros [H|[e' [[<-|He'] Hq]]]; [left; exact H | | right; exists e'; auto].
        left; simpl in Hq; subst q; rewrite <- H0; apply z_mem_In; exact Hmem.
    + destruct (Hg ls0 p) as [Gh Gc].
      assert (Hnot : ~ In p (calls ls0))
        by (rewrite <- H0; intro Hin; apply z_mem_In in Hin; congruence).
      assert (Hset : set_add p (handled_submissions ls0) = handled_submissions ls0 ++ [p])
        by (unfold set_add; rewrite Hmem; reflexivity).
      destruct (IH (finish_entry (g ls0 p) p)) as (Ha & Hb & Hc).
      { simpl; rewrite Gh, Gc, Hset, H0; reflexivity. }
      { simpl; rewrite Gc.
        apply (Permutation_NoDup (Permutation_cons_append (calls ls0) p)).
        constructor; assumption. }
      split; [exact Ha | split; [exact Hb|]].
      intro q; rewrite Hc; simpl; rewrite Gc, in_app_iff; simpl; split.
      * intros [[H|[<-|[]]]|[e' [He' Hq]]].
        -- left; exact H.
        -- right; exists (p, r, t); auto.
        -- right; exists e'; auto.
      * intros [H|[e' [[<-|He'] Hq]]].
        -- left; left; exact H.
        -- left; right; left; exact Hq.
        -- right; exists e'; auto.
Qed.

(** Any property kept by the classification branch and by marking a
    submission handled holds after the loop. *)
Lemma loop_preserve (Inv : LoopState -> Prop)
    (Hg : forall ls p, Inv ls -> Inv (g ls p))
    (Hfin : forall ls p, Inv ls -> Inv (finish_entry ls p)) :
  forall entries ls0, Inv ls0 -> Inv (fold_left f entries ls0).
Proof.
  induction entries as [|e entries IH]; intros ls0 H0; simpl; [exact H0|].
  apply IH; rewrite Hf; destruct e as [[p r] t]; unfold loop_step.
  destruct (z_mem p (handled_submissions ls0)); auto.
Qed.
End LoopShape.

Lemma key_in_sub x l :
  In (slot_key x) (map slot_key l) -> In (submission x) (map submission l).
Proof.
  rewrite !in_map_iff; intros [y [Hy Hin]]; exists y; split; [|exact Hin].
  unfold slot_key in Hy; inversion Hy; reflexivity.
Qed.

Lemma add_move_ok old new ls p :
  diff_entry_ok old new ls -> diff_entry_ok old new (add_move ls p old new).
Proof.
  intros [H1 H2]; unfold add_move; rewrite handle_unmatched.
  pose proof (move_matching_spec_parts
                (unmatched (filter_submission p old) (filter_submission p new))
                (unmatched (filter_submission p new) (filter_submission p old))) as Hparts.
  destruct (move_matching_spec _ _) as [[n c] m]; destruct Hparts as (Hn & Hc & Hm).
  split; simpl.
  - intros x [Hx|Hx]; apply in_app_or in Hx as [Hx|Hx]; eauto.
    + apply Hn, unmatched_spec in Hx as (_ & _ & Hk); tauto.
    + apply Hc, unmatched_spec in Hx as (_ & _ & Hk); tauto.
  - intros mv Hmv; apply in_app_or in Hmv as [Hmv|Hmv]; [eauto|].
    destruct (Hm mv Hmv) as (o & n' & Ho & Hn' & ->).
    apply unmatched_spec in Ho as (Ho & _ & Hko).
    apply unmatched_spec in Hn' as (Hn' & _ & Hkn).
    exists o, n'; auto.
Qed.

Lemma classify_missing_ok old new ls p :
  diff_entry_ok old new ls ->
  diff_entry_ok old new (classify_missing old new (dedup Z.eqb (map submission new)) ls p).
Proof.
  intro H; unfold classify_missing.
  destruct (z_mem p (dedup Z.eqb (map submission new))) eqn:Hp; simpl;
    [apply add_move_ok; exact H|].
  destruct H as [H1 H2]; split; [|exact H2]; simpl.
  intros x [Hx|Hx]; [eauto|]; apply in_app_or in Hx as [Hx|Hx]; [eauto|].
  unfold filter_submission in Hx; apply filter_In in Hx as [_ Hx]; apply Z.eqb_eq in Hx.
  intros [_ Hk]; apply key_in_sub in Hk; rewrite Hx in Hk.
  rewrite <- (dedup_In Z.eqb Z.eqb_eq), <- z_mem_In in Hk; congruence.
Qed.

Lemma classify_new_ok old new ls p :
  diff_entry_ok old new ls ->
  diff_entry_ok old new (classify_new old new (dedup Z.eqb (map submission old)) ls p).
Proof.
  intro H; unfold classify_new.
  destruct (z_mem p (dedup Z.eqb (map submission old))) eqn:Hp; simpl;
    [apply add_move_ok; exact H|].
  destruct H as [H1 H2]; split; [|exact H2]; simpl.
  intros x [Hx|Hx]; [|eauto]; apply in_app_or in Hx as [Hx|Hx]; [eauto|].
  unfold filter_submission in Hx; apply filter_In in Hx as [_ Hx]; apply Z.eqb_eq in Hx.
  intros [Hk _]; apply key_in_sub in Hk; rewrite Hx in Hk.
  rewrite <- (dedup_In Z.eqb Z.eqb_eq), <- z_mem_In in Hk; congruence.
Qed.

Lemma compare_slots_loop_ok old new :
  diff_entry_ok old new (compare_slots_loop old new).
Proof.
  unfold compare_slots_loop, run_loops.
  apply (loop_preserve _ _ (step_new_shape old new _) (diff_entry_ok old new)).
  - intros; apply classify_new_ok; assumption.
  - intros ls p [H1 H2]; split; assumption.
  - apply (loop_preserve _ _ (step_missing_shape old new _) (diff_entry_ok old new)).
    + intros; apply classify_missing_ok; assumption.
    + intros ls p [H1 H2]; split; assumption.
    + split; simpl; [intros x [[]|[]] | intros mv []].
Qed.

Lemma filter_all_false {A} (f : A -> bool) l :
  (forall x, In x l -> f x = false) -> filter f l = [].
Proof.
  induction l as [|x l IH]; intro H; simpl; [reflexivity|].
  rewrite (H x (or_introl eq_refl)); apply IH; intros; apply H; right; assumption.
Qed.

Lemma set_diff_same a b :
  (forall k, In k a -> In k b) -> set_diff a b = [].
Proof.
  intro H; apply filter_all_false; intros k Hk.
  apply negb_false_iff, key_mem_In, H, Hk.
Qed.

Lemma compare_slots_same old new :
  (forall k, In k (map slot_key old) <-> In k (map slot_key new)) ->
  compare_slots old new = mkChanges 0 update [] [] [].
Proof.
  intro H; unfold compare_slots, compare_slots_loop.
  rewrite !set_diff_same; [reflexivity | |];
    intro k; rewrite !(dedup_In key_eqb key_eqb_eq); apply H.
Qed.

(** ** Claims about the diff engine *)
(** C1: for a submission [p], [_handle_submission_move] first keeps, on
    each side, only the slots of [p] with no exact (submission, room, start)
    counterpart on the other side ([A] old, [B] new); then, with
    [diff = len A - len B]: if [diff > 0] the first [diff] slots of [A] are
    canceled and the rest of [A] is paired positionally with all of [B] as
    moves; if [diff < 0] the first [|diff|] slots of [B] are new and the rest
    of [B] is paired positionally with all of [A]; if [diff = 0] all of [A]
    is paired positionally with all of [B]. *)
Theorem handle_submission_move_matching p old_slots new_slots :
  let A := unmatched (filter_submission p old_slots) (filter_submission p new_slots) in
  let B := unmatched (filter_submission p new_slots) (filter_submission p old_slots) in
  let '(new, canceled, moved) := _handle_submission_move p old_slots new_slots in
  ((length B < length A)%nat ->
     let d := (length A - length B)%nat in
     canceled = firstn d A /\ new = [] /\
     length (skipn d A) = length B /\ moved = pair_moves (skipn d A) B) /\
  ((length A < length B)%nat ->
     let d := (length B - length A)%nat in
     new = firstn d B /\ canceled = [] /\
     length (skipn d B) = length A /\ moved = pair_moves A (skipn d B)) /\
  (length A = length B -> new = [] /\ canceled = [] /\ moved = pair_moves A B).
Proof.
  intros A B; rewrite handle_unmatched; fold A B; unfold move_matching_spec.
  destruct (Nat.ltb (length B) (length A)) eqn:H1;
    [apply Nat.ltb_lt in H1 | apply Nat.ltb_ge in H1].
  - repeat split; try lia; rewrite length_skipn; lia.
  - destruct (Nat.ltb (length A) (length B)) eqn:H2;
      [apply Nat.ltb_lt in H2 | apply Nat.ltb_ge in H2].
    + repeat split; try lia; rewrite length_skipn; lia.
    + repeat split; lia.
Qed.

(** C5: conservation in the move matching: the unmatched old slots of the
    submission are as many as the canceled plus the moved results, the
    unmatched new slots as many as the new plus the moved results. *)
Theorem handle_submission_move_conservation p old_slots new_slots :
  let A := unmatched (filter_submission p old_slots) (filter_submission p new_slots) in
  let B := unmatched (filter_submission p new_slots) (filter_submission p old_slots) in
  let '(new, canceled, moved) := _handle_submission_move p old_slots new_slots in
  length A = (length canceled + length moved)%nat /\
  length B = (length new + length moved)%nat.
Proof.
  intros A B; rewrite handle_unmatched; fold A B; unfold move_matching_spec.
  destruct (Nat.ltb (length B) (length A)) eqn:H1;
    [apply Nat.ltb_lt in H1 | apply Nat.ltb_ge in H1].
  - simpl; rewrite pair_moves_length, length_firstn, length_skipn; lia.
  - destruct (Nat.ltb (length A) (length B)) eqn:H2;
      [apply Nat.ltb_lt in H2 | apply Nat.ltb_ge in H2];
      simpl; rewrite pair_moves_length; try rewrite length_firstn, length_skipn; lia.
Qed.

(** C6: when a schedule is compared with its predecessor, a slot whose
    (submission, room, start) is in both the old and the new scheduled set
    gives no entry: no such slot is in [new_talks] or [canceled_talks], and
    every entry of [moved_talks] is built from an old and a new slot neither
    of which is such a placement; a predecessor with the same structural set
    gives empty lists and count 0. *)
Theorem compare_excludes_unchanged_slots nulls_first st schedule :
  match previous_schedule nulls_first (schedules st) schedule with
  | None => True
  | Some prev =>
      let old := scheduled_talks st prev in
      let new := scheduled_talks st schedule in
      let cs := compare_schedule_with_predecessor nulls_first st schedule in
      (forall x, In x (new_talks cs) \/ In x (canceled_talks cs) ->
         ~ (In (slot_key x) (map slot_key old) /\ In (slot_key x) (map slot_key new))) /\
      (forall mv, In mv (moved_talks cs) ->
         exists o n, In o old /\ In n new /\ mv = mk_move o n /\
           ~ In (slot_key o) (map slot_key new) /\ ~ In (slot_key n) (map slot_key old)) /\
      ((forall k, In k (map slot_key old) <-> In k (map slot_key new)) ->
         new_talks cs = [] /\ canceled_talks cs = [] /\ moved_talks cs = [] /\ count cs = 0%nat)
  end.
Proof.
  unfold compare_schedule_with_predecessor.
  destruct (previous_schedule nulls_first (schedules st) schedule) as [prev|]; [|exact I].
  cbv zeta.
  destruct (compare_slots_loop_ok (scheduled_talks st prev) (scheduled_talks st schedule))
    as [H1 H2].
  split; [exact H1 | split; [exact H2|]].
  intro Hsame; rewrite compare_slots_same by exact Hsame; repeat split.
Qed.

(** C7: comparing a schedule that has no predecessor gives the change-set
    with action [create] and no slot-level detail (count 0, empty lists),
    whatever the schedule holds. *)
Theorem compare_without_predecessor_is_create nulls_first st schedule :
  previous_schedule nulls_first (schedules st) schedule = None ->
  compare_schedule_with_predecessor nulls_first st schedule = mkChanges 0 create [] [] [].
Proof.
  intro H; unfold compare_schedule_with_predecessor; rewrite H; reflexivity.
Qed.

(** C9: in one comparison, every submission of a placement in the symmetric
    difference of the old and new structural sets goes through the
    classification step exactly once: the record of classification calls
    equals [handled_submissions], has no duplicates, and holds exactly those
    submissions. *)
Theorem compare_handles_each_submission_once old_slots new_slots :
  let ls := compare_slots_loop old_slots new_slots in
  handled_submissions ls = calls ls /\ NoDup (calls ls) /\
  (forall p, In p (calls ls) <->
     exists k, fst (fst k) = p /\
       ((In k (map slot_key old_slots) /\ ~ In k (map slot_key new_slots)) \/
        (In k (map slot_key new_slots) /\ ~ In k (map slot_key old_slots)))).
Proof.
  unfold compare_slots_loop, run_loops.
  set (os := dedup Z.eqb (map submission old_slots)).
  set (ns := dedup Z.eqb (map submission new_slots)).
  set (OS := dedup key_eqb (map slot_key old_slots)).
  set (NS := dedup key_eqb (map slot_key new_slots)).
  destruct (loop_calls _ _ (step_missing_shape old_slots new_slots ns)
              (classify_missing_ghost old_slots new_slots ns) (set_diff OS NS) loop_init
              eq_refl (NoDup_nil _)) as (A1 & A2 & A3).
  destruct (loop_calls _ _ (step_new_shape old_slots new_slots os)
              (classify_new_ghost old_slots new_slots os) (set_diff NS OS) _ A1 A2)
    as (B1 & B2 & B3).
  split; [exact B1 | split; [exact B2|]].
  intro p; rewrite B3, A3; simpl.
  assert (HOS : forall k, In k OS <-> In k (map slot_key old_slots))
    by (intro; apply dedup_In, key_eqb_eq).
  assert (HNS : forall k, In k NS <-> In k (map slot_key new_slots))
    by (intro; apply dedup_In, key_eqb_eq).
  split.
  - intros [[[]|[k [Hk Hp]]]|[k [Hk Hp]]]; exists k; split; auto;
      apply set_diff_In in Hk as [Hk1 Hk2]; rewrite HOS, HNS in *; tauto.
  - intros [k [Hp [[Hk1 Hk2]|[Hk1 Hk2]]]].
    + left; right; exists k; split; auto; apply set_diff_In; rewrite HOS, HNS; tauto.
    + right; exists k; split; auto; apply set_diff_In; rewrite HOS, HNS; tauto.
Qed.

(** ** Lemmas about [freeze_schedule] *)
Lemma placed_and_confirmed_iff st t :
  placed_and_confirmed st t = true <->
  start t <> None /\ sub_state st (submission t) = CONFIRMED.
Proof.
  unfold placed_and_confirmed; destruct (start t); rewrite ?state_eqb_eq;
    split; [intro; split; congruence | tauto | discriminate | intros [H _]; congruence].
Qed.

(** After the two [update] passes, a slot of the frozen schedule is visible
    exactly when it is placed and confirmed. *)
Lemma visibility_passes st pk l t :
  In t (update_visibility pk (fun t => is_visible t && negb (placed_and_confirmed st t)) false
          (update_visibility pk (fun t => placed_and_confirmed st t && negb (is_visible t))
             true l)) ->
  slot_schedule t = pk ->
  is_visible t = placed_and_confirmed st t.
Proof.
  unfold update_visibility; rewrite map_map, in_map_iff; intros [t0 [<- _]].
  destruct t0 as [p s sub r stt e v]; unfold placed_and_confirmed; simpl.
  destruct (Z.eqb s pk) eqn:Hs; simpl.
  - intros _; destruct v, stt; simpl;
      destruct (state_eqb (sub_state st sub) CONFIRMED) eqn:E; simpl;
      rewrite ?Hs, ?E; simpl; rewrite ?Hs, ?E; reflexivity.
  - rewrite Hs; simpl; intro H; apply Z.eqb_neq in Hs; contradiction.
Qed.

Lemma copy_all_in target pk l c :
  In c (copy_all target pk l) ->
  exists t k, In t l /\ c = copy_to_schedule t target k.
Proof.
  revert pk; induction l as [|t l IH]; intros pk Hc; simpl in Hc; [destruct Hc|].
  destruct Hc as [<-|Hc].
  - exists t, pk; split; [left|]; reflexivity.
  - destruct (IH _ Hc) as (t' & k & Ht' & ->); exists t', k; split; [right; exact Ht'|reflexivity].
Qed.

Lemma copy_all_schedule target pk l c :
  In c (copy_all target pk l) -> slot_schedule c = target.
Proof. intro H; apply copy_all_in in H as (t & k & _ & ->); reflexivity. Qed.

Lemma update_visibility_schedule pk pred v l t :
  In t (update_visibility pk pred v l) ->
  exists t0, In t0 l /\ slot_schedule t = slot_schedule t0.
Proof.
  unfold update_visibility; rewrite in_map_iff; intros [t0 [<- H]]; exists t0; split; auto.
  destruct (_ && _); reflexivity.
Qed.

(** C2: once [freeze_schedule] has completed on a schedule, each slot of
    the frozen schedule is visible if and only if its start is set and its
    submission is CONFIRMED, whatever its visibility was before. *)
Theorem freeze_visibility_exact st schedule name now notify_speakers frozen wip st' :
  freeze_schedule st schedule name now notify_speakers = (Returned (frozen, wip), st') ->
  forall t, In t (talks st' (sched_pk frozen)) ->
    (is_visible t = true <-> start t <> None /\ sub_state st' (submission t) = CONFIRMED).
Proof.
  unfold freeze_schedule.
  destruct (existsb _ _); [discriminate|].
  destruct (truthy (version schedule)); [discriminate|].
  destruct (negb (truthy name)); [discriminate|].
  intro H; injection H as <- <- <-; simpl.
  intros t Ht; rewrite <- placed_and_confirmed_iff.
  unfold talks in Ht; simpl in Ht; apply filter_In in Ht as [Ht Hpk]; apply Z.eqb_eq in Hpk.
  apply in_app_or in Ht as [Ht|Ht].
  - rewrite (visibility_passes st _ _ t Ht Hpk); reflexivity.
  - apply copy_all_in in Ht as (t0 & k & Ht0 & ->).
    apply filter_In in Ht0 as [Ht0 Hpk0]; apply Z.eqb_eq in Hpk0.
    pose proof (visibility_passes st _ _ t0 Ht0 Hpk0) as Hv.
    unfold copy_to_schedule, placed_and_confirmed in *; simpl in *.
    rewrite Hv; reflexivity.
Qed.

(** C3 (as the code does it): [freeze_schedule] called with the reserved
    name ['wip'] or ['latest'], with an empty or missing name, or on a
    schedule that already has a (non-empty) version raises the built-in
    [Exception] before any write: the store comes back unchanged, so the
    schedule's [version] and [published] and its slots are as before. *)
Theorem freeze_rejects_without_mutation st schedule name now notify_speakers :
  (name = Some "wip"%string \/ name = Some "latest"%string \/ name = None \/
   name = Some ""%string \/ (exists v, version schedule = Some v /\ v <> ""%string)) ->
  exists msg, freeze_schedule st schedule name now notify_speakers = (Raised PyException msg, st).
Proof.
  intro H; unfold freeze_schedule.
  destruct (existsb _ _) eqn:E1; [eexists; reflexivity|].
  destruct (truthy (version schedule)) eqn:E2; [eexists; reflexivity|].
  destruct (negb (truthy name)) eqn:E3; [eexists; reflexivity|].
  exfalso.
  destruct H as [->|[->|[->|[->|[v [Hv Hne]]]]]]; try discriminate.
  rewrite Hv in E2; simpl in E2.
  apply negb_false_iff, String.eqb_eq in E2; contradiction.
Qed.

(** ** Lemmas about [unfreeze] *)
Lemma room_eqb_eq a b : room_eqb a b = true <-> a = b.
Proof.
  destruct a as [p1 n1 i1], b as [p2 n2 i2]; unfold room_eqb; simpl.
  rewrite !andb_true_iff, Z.eqb_eq, !String.eqb_eq.
  split; [intros [[-> ->] ->]; reflexivity | intro H; inversion H; auto].
Qed.

Lemma slot_eqb_eq a b : slot_eqb a b = true <-> a = b.
Proof.
  destruct a as [p1 s1 u1 r1 t1 e1 v1], b as [p2 s2 u2 r2 t2 e2 v2]; unfold slot_eqb; simpl.
  rewrite !andb_true_iff, !Z.eqb_eq, (opt_eqb_eq room_eqb room_eqb_eq),
    !(opt_eqb_eq Z.eqb Z.eqb_eq), eqb_true_iff.
  split; [intros [[[[[[-> ->] ->] ->] ->] ->] ->]; reflexivity
         | intro H; inversion H; repeat split].
Qed.

Lemma copy_all_has target pk l t :
  In t l -> exists k, In (copy_to_schedule t target k) (copy_all target pk l).
Proof.
  revert pk; induction l as [|x l IH]; intros pk H; simpl in H; [destruct H|].
  destruct H as [<-|H].
  - exists pk; left; reflexivity.
  - destruct (IH (pk + 1) H) as [k Hk]; exists k; right; exact Hk.
Qed.

Lemma filter_filter_implied {A} (f g : A -> bool) l :
  (forall x, f x = true -> g x = true) -> filter f (filter g l) = filter f l.
Proof.
  intro H; induction l as [|x l IH]; simpl; [reflexivity|].
  destruct (g x) eqn:Eg; simpl; destruct (f x) eqn:Ef; rewrite ?IH; try reflexivity.
  rewrite (H x Ef) in Eg; discriminate.
Qed.

Lemma NoDup_map_same {A B} (f : A -> B) l a b :
  NoDup (map f l) -> In a l -> In b l -> f a = f b -> a = b.
Proof.
  induction l as [|x l IH]; simpl; [tauto|].
  intros Hnd Ha Hb Hab; inversion Hnd as [|y ys Hx Hnd']; subst.
  destruct Ha as [<-|Ha], Hb as [<-|Hb]; auto.
  - exfalso; apply Hx; rewrite Hab; apply in_map; exact Hb.
  - exfalso; apply Hx; rewrite <- Hab; apply in_map; exact Ha.
Qed.

(** C4: unfreezing a versioned schedule [self] (version set and non-empty)
    of an event whose working draft is [old_wip] returns [self] itself and a
    new working draft of the same event whose slots are copies of exactly
    the union of (a) the slots of [old_wip] whose submission has no slot in
    [self] and (b) the slots of [self]; [old_wip] and its slots are deleted,
    [self] and its slots are unchanged.  The store is well formed: schedule
    keys are distinct and all keys are below the next auto-increment key. *)
Theorem unfreeze_restores_draft st self old_wip v :
  In self (schedules st) ->
  version self = Some v -> v <> ""%string ->
  wip_schedule (schedules st) (sched_event self) = Some old_wip ->
  NoDup (map sched_pk (schedules st)) ->
  (forall s, In s (schedules st) -> sched_pk s < next_pk st) ->
  (forall t, In t (talk_slots st) -> slot_schedule t < next_pk st) ->
  exists wip st',
    unfreeze st self = (Returned (self, wip), st') /\
    In wip (schedules st') /\ version wip = None /\ sched_event wip = sched_event self /\
    (forall c, In c (map slot_content (talks st' (sched_pk wip))) <->
       (exists t, In t (talks st (sched_pk old_wip)) /\
                  ~ In (submission t) (map submission (talks st (sched_pk self))) /\
                  slot_content t = c) \/
       (exists t, In t (talks st (sched_pk self)) /\ slot_content t = c)) /\
    (forall s, In s (schedules st') -> sched_pk s <> sched_pk old_wip) /\
    talks st' (sched_pk old_wip) = [] /\
    In self (schedules st') /\ talks st' (sched_pk self) = talks st (sched_pk self).
Proof.
  intros Hself Hv Hne Hwip Hnd Hspk Htpk.
  pose proof Hwip as Hw; apply find_some in Hw as [Hold Hwv].
  apply andb_true_iff in Hwv as [Hev Hwv].
  destruct (version old_wip) eqn:Hov; [discriminate|].
  assert (Hold_lt := Hspk _ Hold).
  assert (Hself_lt := Hspk _ Hself).
  assert (Hneq : sched_pk self <> sched_pk old_wip).
  { intro E; pose proof (NoDup_map_same _ _ _ _ Hnd Hself Hold E) as <-; congruence. }
  unfold unfreeze; rewrite Hv, Hwip; simpl.
  replace (negb (negb (v =? "")%string)) with false
    by (destruct (String.eqb_spec v ""); [contradiction | reflexivity]).
  eexists _, _; split; [reflexivity|].
  set (ids := map submission (talks st (sched_pk self))).
  set (ts := qs_union (filter (fun t => negb (z_mem (submission t) ids))
                              (talks st (sched_pk old_wip)))
                      (talks st (sched_pk self))).
  set (copies := copy_all (next_pk st) (next_pk st + 1) ts).
  assert (Hcopies : forall t, In t copies -> slot_schedule t = next_pk st)
    by (intros t Ht; eapply copy_all_schedule; exact Ht).
  split; [|split; [reflexivity | split; [reflexivity|split; [|split; [|split; [|split]]]]]].
  - (* the new working draft is stored *)
    apply filter_In; split; [apply in_or_app; right; left; reflexivity|].
    simpl; apply negb_true_iff, Z.eqb_neq; lia.
  - (* its slots are the union *)
    intro c; unfold talks at 1; simpl; rewrite in_map_iff; split.
    + intros [t [<- Ht]].
      apply filter_In in Ht as [Ht Hpk]; apply Z.eqb_eq in Hpk.
      apply filter_In in Ht as [Ht _]; apply in_app_or in Ht as [Ht|Ht].
      { specialize (Htpk _ Ht); lia. }
      apply copy_all_in in Ht as (t0 & k & Ht0 & ->).
      apply (dedup_In slot_eqb slot_eqb_eq), in_app_or in Ht0 as [Ht0|Ht0].
      * left; apply filter_In in Ht0 as [Ht0 Hid]; exists t0; split; [exact Ht0|].
        split; [|reflexivity].
        intro Hin; apply z_mem_In in Hin; fold ids in Hin; rewrite Hin in Hid; discriminate.
      * right; exists t0; split; [exact Ht0 | reflexivity].
    + intro H.
      assert (Hts : exists t, In t ts /\ slot_content t = c).
      { destruct H as [[t (Ht & Hid & Hc)]|[t (Ht & Hc)]]; exists t; split; auto;
          apply (dedup_In slot_eqb slot_eqb_eq), in_or_app.
        - left; apply filter_In; split; [exact Ht|].
          apply negb_true_iff; destruct (z_mem (submission t) ids) eqn:E; [|reflexivity].
          apply z_mem_In in E; contradiction.
        - right; exact Ht. }
      destruct Hts as [t [Ht Hc]].
      destruct (copy_all_has (next_pk st) (next_pk st + 1) ts t Ht) as [k Hk].
      exists (copy_to_schedule t (next_pk st) k); split; [exact Hc|].
      apply filter_In; split; [|apply Z.eqb_eq; reflexivity].
      apply filter_In; split; [apply in_or_app; right; exact Hk|].
      simpl; apply negb_true_iff, Z.eqb_neq; lia.
  - (* the old working draft is deleted *)
    intros s Hs; apply filter_In in Hs as [_ Hs].
    apply negb_true_iff, Z.eqb_neq in Hs; exact Hs.
  - (* and its slots *)
    unfold talks; simpl; apply filter_all_false; intros t Ht.
    apply filter_In in Ht as [_ Ht]; apply negb_true_iff in Ht; exact Ht.
  - (* the versioned schedule is kept *)
    apply filter_In; split; [apply in_or_app; left; exact Hself|].
    apply negb_true_iff, Z.eqb_neq; exact Hneq.
  - (* with its slots *)
    unfold talks; simpl.
    rewrite filter_filter_implied.
    + rewrite filter_app, (filter_all_false _ copies), app_nil_r; [reflexivity|].
      intros t Ht; apply Hcopies in Ht; rewrite Ht; apply Z.eqb_neq; lia.
    + intros t Ht; apply Z.eqb_eq in Ht; apply negb_true_iff, Z.eqb_neq; congruence.
Qed.

Lemma before_irrefl nf a : desc_published_before nf a a = false.
Proof. destruct a; simpl; [apply Z.ltb_irrefl | reflexivity]. Qed.

Lemma before_trans nf a b c :
  desc_published_before nf a b = true -> desc_published_before nf b c = true ->
  desc_published_before nf a c = true.
Proof.
  destruct nf, a, b, c; simpl; intros H1 H2; ltb_facts; try lia; discriminate.
Qed.

Lemma before_not_trans nf a b c :
  desc_published_before nf a b = false -> desc_published_before nf b c = false ->
  desc_published_before nf a c = false.
Proof.
  destruct nf, a, b, c; simpl; intros H1 H2; ltb_facts; try lia; try discriminate;
    reflexivity.
Qed.

(** The accumulator of [first_by_published] is a first element of the
    [-published] order among what it has seen. *)
Lemma fold_first_spec nf l : forall acc,
  let r := fold_left (first_step nf) l acc in
  (r = None -> acc = None /\ l = []) /\
  (forall s, r = Some s ->
     (acc = Some s \/ In s l) /\
     (forall a, acc = Some a -> desc_published_before nf (published a) (published s) = false) /\
     (forall x, In x l -> desc_published_before nf (published x) (published s) = false)).
Proof.
  induction l as [|x l IH]; intros acc r; subst r; simpl.
  - split; [auto|]; intros s ->; split; [auto|]; split; [|intros _ []].
    intros a Ha; injection Ha as ->; apply before_irrefl.
  - destruct (IH (first_step nf acc x)) as [_ IH2]; split.
    + intro H; exfalso; destruct (IH (first_step nf acc x)) as [IH1 _].
      destruct (IH1 H) as [Hacc _]; unfold first_step in Hacc;
        destruct acc; [destruct (desc_published_before _ _ _)|]; discriminate.
    + intros s Hs; destruct (IH2 s Hs) as (Hin & Hacc & Hl); clear IH2.
      unfold first_step in *; destruct acc as [a|].
      * destruct (desc_published_before nf (published x) (published a)) eqn:Exa.
        -- specialize (Hacc x eq_refl).
           split; [destruct Hin as [Hin|Hin]; [injection Hin as ->; right; left; reflexivity
                                              | right; right; exact Hin]|].
           split.
           ++ intros a' Ha'; injection Ha' as <-.
              destruct (desc_published_before nf (published a) (published s)) eqn:E;
                [|reflexivity].
              rewrite (before_trans _ _ _ _ Exa E) in Hacc; discriminate.
           ++ intros y [<-|Hy]; [exact Hacc | apply Hl, Hy].
        -- specialize (Hacc a eq_refl).
           split; [destruct Hin as [Hin|Hin]; [left; exact Hin | right; right; exact Hin]|].
           split; [intros a' Ha'; injection Ha' as <-; exact Hacc|].
           intros y [<-|Hy]; [apply (before_not_trans _ _ _ _ Exa Hacc) | apply Hl, Hy].
      * specialize (Hacc x eq_refl).
        split; [destruct Hin as [Hin|Hin]; [injection Hin as ->; right; left; reflexivity
                                           | right; right; exact Hin]|].
        split; [discriminate|].
        intros y [<-|Hy]; [exact Hacc | apply Hl, Hy].
Qed.

Lemma first_by_published_spec nf l :
  (first_by_published nf l = None -> l = []) /\
  (forall s, first_by_published nf l = Some s ->
     In s l /\ forall x, In x l -> desc_published_before nf (published x) (published s) = false).
Proof.
  destruct (fold_first_spec nf l None) as [H1 H2]; unfold first_by_published; split.
  - intro H; apply H1; exact H.
  - intros s Hs; destruct (H2 s Hs) as ([Hin|Hin] & _ & Hl); [discriminate|auto].
Qed.

(** C10: the predecessor used for diffing: for a published schedule, the
    event's other schedule with the greatest [published] strictly before
    its own; for the working draft (unpublished, the only unpublished
    schedule of its event), the event's most recently published schedule;
    [None] when there is no candidate, and then the comparison is the
    [create] case.  This holds whichever way the database orders NULLs. *)
Theorem previous_schedule_latest_before nulls_first st self :
  (published self = None ->
   forall s, In s (schedules st) -> sched_event s = sched_event self ->
             sched_pk s <> sched_pk self -> published s <> None) ->
  latest_candidate (schedules st) self (previous_schedule nulls_first (schedules st) self) /\
  (previous_schedule nulls_first (schedules st) self = None ->
   action (compare_schedule_with_predecessor nulls_first st self) = create).
Proof.
  intro Hdraft.
  split; [|intro H; unfold compare_schedule_with_predecessor; rewrite H; reflexivity].
  unfold previous_schedule.
  set (qs0 := filter (fun s => (sched_event s =? sched_event self)
                               && negb (sched_pk s =? sched_pk self)) (schedules st)).
  set (qs := match published self with
             | Some p => filter (fun s => match published s with
                                          | Some q => q <? p
                                          | None => false
                                          end) qs0
             | None => qs0
             end).
  assert (Hqs : forall s, In s qs <-> predecessor_candidate (schedules st) self s).
  { intro s; unfold qs, qs0, predecessor_candidate.
    destruct (published self) as [p|] eqn:Hp.
    - rewrite !filter_In, andb_true_iff, Z.eqb_eq, negb_true_iff, Z.eqb_neq.
      destruct (published s) as [q|]; split.
      + intros [[Hs [He Hk]] Hq]; apply Z.ltb_lt in Hq; repeat split; auto; exists q; auto.
      + intros (Hs & He & Hk & q' & Hq' & Hlt); injection Hq' as <-.
        repeat split; auto; apply Z.ltb_lt; exact Hlt.
      + intros [_ H]; discriminate.
      + intros (_ & _ & _ & q' & Hq' & _); discriminate.
    - rewrite filter_In, andb_true_iff, Z.eqb_eq, negb_true_iff, Z.eqb_neq; split.
      + intros [Hs [He Hk]]; repeat split; auto.
        destruct (published s) as [q|] eqn:Hq; [exists q; auto|].
        exfalso; apply (Hdraft eq_refl s Hs He Hk Hq).
      + intros (Hs & He & Hk & _); auto. }
  destruct (first_by_published_spec nulls_first qs) as [Hnone Hsome].
  destruct (first_by_published nulls_first qs) as [s|] eqn:Hr; simpl.
  - destruct (Hsome s eq_refl) as [Hs Hmax].
    split; [apply Hqs, Hs|].
    intros s' Hs'; apply Hqs in Hs'.
    pose proof (Hmax s' Hs') as Hb.
    apply Hqs in Hs, Hs'.
    destruct Hs as (_ & _ & _ & q & Hq & _), Hs' as (_ & _ & _ & q' & Hq' & _).
    exists q, q'; split; [exact Hq | split; [exact Hq'|]].
    rewrite Hq, Hq' in Hb; simpl in Hb; apply Z.ltb_ge in Hb; exact Hb.
  - intros s Hs; apply Hqs in Hs; rewrite (Hnone eq_refl) in Hs; destruct Hs.
Qed.

(** ** Witnesses and concrete runs *)
(** C8 at a release that only cancels: with talk 5 removed from the draft
    the comparison has one canceled talk and count 1, and
    [speakers_with_changed_slots] returns the list [[]], not a dict. *)
Theorem speakers_cancel_only_is_empty_list :
  compare_schedule_with_predecessor true ex_cancel_store ex_wip =
    mkChanges 1 update [] [mkSlot 10 1 5 (Some ex_room) (Some 1000) (Some 1100) true] [] /\
  speakers_with_changed_slots true ex_cancel_store ex_wip = EmptyPyList /\
  speakers_with_changed_slots false ex_cancel_store ex_wip = EmptyPyList.
Proof. split; [|split]; reflexivity. Qed.

Lemma freeze_visibility_exact_witness :
  ex_freeze = (Returned (ex_v2, ex_wip2), snd ex_freeze) /\
  (forall t, In t (talks (snd ex_freeze) (sched_pk ex_v2)) ->
     (is_visible t = true <->
      start t <> None /\ sub_state (snd ex_freeze) (submission t) = CONFIRMED)).
Proof.
  split; [reflexivity|].
  apply (freeze_visibility_exact ex_store ex_wip (Some "v2"%string) 200 true ex_v2 ex_wip2).
  reflexivity.
Defined.

Lemma freeze_rejects_without_mutation_witness :
  Some "wip"%string = Some "wip"%string /\
  exists msg, freeze_schedule ex_store ex_wip (Some "wip"%string) 200 true
              = (Raised PyException msg, ex_store).
Proof.
  split; [reflexivity|].
  apply freeze_rejects_without_mutation; left; reflexivity.
Defined.

(** C3 as stated fails: freezing with the reserved name ['wip'] raises, but
    not a [ValidationError]. *)
Lemma freeze_reserved_name_not_validation_error :
  ~ exists msg st', freeze_schedule ex_store ex_wip (Some "wip"%string) 200 true
                    = (Raised ValidationError msg, st').
Proof. intros (msg & st' & H); discriminate H. Qed.

Lemma unfreeze_restores_draft_witness :
  In ex_v1 (schedules ex_store) /\ version ex_v1 = Some "v1"%string /\
  "v1"%string <> ""%string /\
  wip_schedule (schedules ex_store) (sched_event ex_v1) = Some ex_wip /\
  NoDup (map sched_pk (schedules ex_store)) /\
  exists wip st',
    unfreeze ex_store ex_v1 = (Returned (ex_v1, wip), st') /\
    In wip (schedules st') /\ version wip = None /\ sched_event wip = sched_event ex_v1 /\
    (forall c, In c (map slot_content (talks st' (sched_pk wip))) <->
       (exists t, In t (talks ex_store (sched_pk ex_wip)) /\
                  ~ In (submission t) (map submission (talks ex_store (sched_pk ex_v1))) /\
                  slot_content t = c) \/
       (exists t, In t (talks ex_store (sched_pk ex_v1)) /\ slot_content t = c)) /\
    (forall s, In s (schedules st') -> sched_pk s <> sched_pk ex_wip) /\
    talks st' (sched_pk ex_wip) = [] /\
    In ex_v1 (schedules st') /\ talks st' (sched_pk ex_v1) = talks ex_store (sched_pk ex_v1).
Proof.
  assert (Hnd : NoDup (map sched_pk (schedules ex_store)))
    by (simpl; constructor; [simpl; lia | constructor; [simpl; tauto | constructor]]).
  split; [simpl; auto|]; split; [reflexivity|]; split; [discriminate|].
  split; [reflexivity|]; split; [exact Hnd|].
  apply (unfreeze_restores_draft ex_store ex_v1 ex_wip "v1"%string).
  - simpl; auto.
  - reflexivity.
  - discriminate.
  - reflexivity.
  - exact Hnd.
  - intros s Hs; simpl in Hs; repeat (destruct Hs as [<-|Hs]; [simpl; lia|]); destruct Hs.
  - intros t Ht; simpl in Ht; repeat (destruct Ht as [<-|Ht]; [simpl; lia|]); destruct Ht.
Defined.

Lemma compare_without_predecessor_is_create_witness :
  previous_schedule true (schedules ex_store) ex_v1 = None /\
  compare_schedule_with_predecessor true ex_store ex_v1 = mkChanges 0 create [] [] [].
Proof.
  split; [reflexivity|].
  apply compare_without_predecessor_is_create; reflexivity.
Defined.

Lemma previous_schedule_latest_before_witness :
  (published ex_wip = None ->
   forall s, In s (schedules ex_store) -> sched_event s = sched_event ex_wip ->
             sched_pk s <> sched_pk ex_wip -> published s <> None) /\
  latest_candidate (schedules ex_store) ex_wip
    (previous_schedule true (schedules ex_store) ex_wip) /\
  (previous_schedule true (schedules ex_store) ex_wip = None ->
   action (compare_schedule_with_predecessor true ex_store ex_wip) = create).
Proof.
  assert (H : published ex_wip = None ->
              forall s, In s (schedules ex_store) -> sched_event s = sched_event ex_wip ->
                        sched_pk s <> sched_pk ex_wip -> published s <> None).
  { intros _ s Hs He Hk; simpl in Hs.
    destruct Hs as [<-|[<-|[]]]; [discriminate | simpl in Hk; lia]. }
  split; [exact H|].
  apply previous_schedule_latest_before; exact H.
Defined.

(** ** Completeness and soundness of the comparison *)

Lemma pair_cover_l a b o :
  In o a -> (length a <= length b)%nat ->
  exists n, In n b /\ In (mk_move o n) (pair_moves a b).
Proof.
  revert b; induction a as [|x a IH]; intros b Ho Hlen; [destruct Ho|].
  destruct b as [|y b]; simpl in Hlen; [lia|].
  destruct Ho as [<-|Ho].
  - exists y; split; [left; reflexivity | left; reflexivity].
  - destruct (IH b Ho ltac:(lia)) as [n [Hn Hm]].
    exists n; split; [right; exact Hn | right; exact Hm].
Qed.

Lemma pair_cover_r a b n :
  In n b -> (length b <= length a)%nat ->
  exists o, In o a /\ In (mk_move o n) (pair_moves a b).
Proof.
  revert a; induction b as [|y b IH]; intros a Hn Hlen; [destruct Hn|].
  destruct a as [|x a]; simpl in Hlen; [lia|].
  destruct Hn as [<-|Hn].
  - exists x; split; [left; reflexivity | left; reflexivity].
  - destruct (IH a Hn ltac:(lia)) as [o [Ho Hm]].
    exists o; split; [right; exact Ho | right; exact Hm].
Qed.

Lemma In_firstn_skipn {A} d (l : list A) x :
  In x l -> In x (firstn d l) \/ In x (skipn d l).
Proof. intro H; rewrite <- (firstn_skipn d l) in H; apply in_app_or in H; exact H. Qed.

(** The move matching reports every slot it is given. *)
Lemma move_matching_cover a b :
  let '(nw, c, m) := move_matching_spec a b in
  (forall o, In o a -> In o c \/ exists n, In n b /\ In (mk_move o n) m) /\
  (forall n, In n b -> In n nw \/ exists o, In o a /\ In (mk_move o n) m).
Proof.
  unfold move_matching_spec.
  destruct (Nat.ltb (length b) (length a)) eqn:H1;
    [apply Nat.ltb_lt in H1 | apply Nat.ltb_ge in H1].
  - split.
    + intros o Ho; destruct (In_firstn_skipn (length a - length b) a o Ho) as [H|H];
        [left; exact H | right].
      apply pair_cover_l; [exact H | rewrite length_skipn; lia].
    + intros n Hn; right.
      destruct (pair_cover_r (skipn (length a - length b) a) b n Hn) as [o [Ho Hm]];
        [rewrite length_skipn; lia|].
      exists o; split; [eapply In_skipn_l; eauto | exact Hm].
  - destruct (Nat.ltb (length a) (length b)) eqn:H2;
      [apply Nat.ltb_lt in H2 | apply Nat.ltb_ge in H2]; split.
    + intros o Ho; right.
      destruct (pair_cover_l a (skipn (length b - length a) b) o Ho) as [n [Hn Hm]];
        [rewrite length_skipn; lia|].
      exists n; split; [eapply In_skipn_l; eauto | exact Hm].
    + intros n Hn; destruct (In_firstn_skipn (length b - length a) b n Hn) as [H|H];
        [left; exact H | right].
      apply pair_cover_r; [exact H | rewrite length_skipn; lia].
    + intros o Ho; right; apply pair_cover_l; [exact Ho | lia].
    + intros n Hn; right; apply pair_cover_r; [exact Hn | lia].
Qed.

Lemma unmatched_intro p l1 l2 x :
  In x l1 -> submission x = p -> ~ In (slot_key x) (map slot_key l2) ->
  In x (unmatched (filter_submission p l1) (filter_submission p l2)).
Proof.
  intros Hx Hp Hk; unfold unmatched; apply filter_In; split.
  - apply filter_In; split; [exact Hx | apply Z.eqb_eq; exact Hp].
  - apply negb_true_iff; destruct (key_mem _ _) eqn:E; [|reflexivity].
    exfalso; apply key_mem_In, in_map_iff in E as [y [Hy Hin]].
    apply filter_In in Hin as [Hin _]; apply Hk; rewrite <- Hy; apply in_map; exact Hin.
Qed.

Lemma add_move_covered old new ls p : covered old new p (add_move ls p old new).
Proof.
  unfold add_move; rewrite handle_unmatched.
  pose proof (move_matching_cover
                (unmatched (filter_submission p old) (filter_submission p new))
                (unmatched (filter_submission p new) (filter_submission p old))) as Hc.
  destruct (move_matching_spec _ _) as [[nw c] m]; destruct Hc as [Ho Hn].
  split; simpl.
  - intros o Hin Hp Hk; destruct (Ho o (unmatched_intro p old new o Hin Hp Hk)) as [H|[n [Hn' Hm]]].
    + left; apply in_or_app; right; exact H.
    + right; exists n; split; [apply unmatched_spec in Hn' as [? _]; assumption|].
      apply in_or_app; right; exact Hm.
  - intros n Hin Hp Hk; destruct (Hn n (unmatched_intro p new old n Hin Hp Hk)) as [H|[o [Ho' Hm]]].
    + left; apply in_or_app; right; exact H.
    + right; exists o; split; [apply unmatched_spec in Ho' as [? _]; assumption|].
      apply in_or_app; right; exact Hm.
Qed.

Lemma sub_in_dedup x l : In x l -> z_mem (submission x) (dedup Z.eqb (map submission l)) = true.
Proof. intro H; apply z_mem_In, (dedup_In Z.eqb Z.eqb_eq), in_map, H. Qed.

Lemma classify_missing_covered old new ls p :
  covered old new p (classify_missing old new (dedup Z.eqb (map submission new)) ls p).
Proof.
  unfold classify_missing.
  destruct (z_mem p (dedup Z.eqb (map submission new))) eqn:Hp; simpl;
    [apply add_move_covered|].
  split; simpl.
  - intros o Hin Hsub _; left; apply in_or_app; right.
    apply filter_In; split; [exact Hin | apply Z.eqb_eq; exact Hsub].
  - intros n Hin Hsub _; exfalso; rewrite <- Hsub, sub_in_dedup in Hp by exact Hin; discriminate.
Qed.

Lemma classify_new_covered old new ls p :
  covered old new p (classify_new old new (dedup Z.eqb (map submission old)) ls p).
Proof.
  unfold classify_new.
  destruct (z_mem p (dedup Z.eqb (map submission old))) eqn:Hp; simpl;
    [apply add_move_covered|].
  split; simpl.
  - intros o Hin Hsub _; exfalso; rewrite <- Hsub, sub_in_dedup in Hp by exact Hin; discriminate.
  - intros n Hin Hsub _; left; apply in_or_app; right.
    apply filter_In; split; [exact Hin | apply Z.eqb_eq; exact Hsub].
Qed.

Lemma incl_app_l {A} (l r : list A) : incl l (l ++ r).
Proof. intros x H; apply in_or_app; left; exact H. Qed.

Lemma add_move_grows ls p old new : grows ls (add_move ls p old new).
Proof.
  unfold add_move; destruct (_handle_submission_move p old new) as [[n c] m].
  repeat split; simpl; try apply incl_app_l; apply incl_refl.
Qed.

Lemma classify_missing_grows old new ns ls p : grows ls (classify_missing old new ns ls p).
Proof.
  unfold classify_missing; destruct (negb _); [|apply add_move_grows].
  repeat split; simpl; try apply incl_app_l; apply incl_refl.
Qed.

Lemma classify_new_grows old new os ls p : grows ls (classify_new old new os ls p).
Proof.
  unfold classify_new; destruct (negb _); [|apply add_move_grows].
  repeat split; simpl; try apply incl_app_l; apply incl_refl.
Qed.

Lemma covered_grows old new p ls ls' :
  grows ls ls' -> covered old new p ls -> covered old new p ls'.
Proof.
  intros (Hn & Hc & Hm & _) [H1 H2]; split.
  - intros o Ho Hp Hk; destruct (H1 o Ho Hp Hk) as [H|[n [Hn' H]]];
      [left; apply Hc, H | right; exists n; split; [exact Hn' | apply Hm, H]].
  - intros n Hn' Hp Hk; destruct (H2 n Hn' Hp Hk) as [H|[o [Ho H]]];
      [left; apply Hn, H | right; exists o; split; [exact Ho | apply Hm, H]].
Qed.

Section LoopCover.
Variable f : LoopState -> SlotKey -> LoopState.
Variable g : LoopState -> Z -> LoopState.
Hypothesis Hf : forall ls e, f ls e = loop_step g ls e.
Variables old new : list TalkSlot.
Hypothesis Hgrow : forall ls p, grows ls (g ls p).
Hypothesis Hcalls : forall ls p, calls (g ls p) = calls ls.
Hypothesis Hcov : forall ls p, covered old new p (g ls p).

(** Every submission that reached a classification branch has all its
    changed placements reported, and stays so. *)
Lemma loop_cover :
  forall entries ls0,
    (forall p, In p (calls ls0) -> covered old new p ls0) ->
    forall p, In p (calls (fold_left f entries ls0)) ->
              covered old new p (fold_left f entries ls0).
Proof.
  induction entries as [|e entries IH]; intros ls0 H0; simpl; [exact H0|].
  apply IH; rewrite Hf; destruct e as [[q r] t]; unfold loop_step.
  destruct (z_mem q (handled_submissions ls0)); [exact H0|].
  intros p Hp; simpl in Hp; rewrite Hcalls in Hp; apply in_app_or in Hp.
  assert (Hfin : forall x, covered old new x (g ls0 q) ->
                           covered old new x (finish_entry (g ls0 q) q))
    by (intros x [H1 H2]; split; assumption).
  apply Hfin; destruct Hp as [Hp|[<-|[]]]; [|apply Hcov].
  apply (covered_grows _ _ _ ls0); [apply Hgrow | apply H0, Hp].
Qed.
End LoopCover.

Lemma compare_slots_loop_calls old new :
  forall k, In k (set_diff (dedup key_eqb (map slot_key old)) (dedup key_eqb (map slot_key new)))
            \/ In k (set_diff (dedup key_eqb (map slot_key new)) (dedup key_eqb (map slot_key old))) ->
  In (fst (fst k)) (calls (compare_slots_loop old new)).
Proof.
  intros k Hk; unfold compare_slots_loop, run_loops.
  destruct (loop_calls _ _ (step_missing_shape old new (dedup Z.eqb (map submission new)))
              (classify_missing_ghost old new _)
              (set_diff (dedup key_eqb (map slot_key old)) (dedup key_eqb (map slot_key new)))
              loop_init eq_refl (NoDup_nil _)) as (Ha & Hb & Hc).
  destruct (loop_calls _ _ (step_new_shape old new (dedup Z.eqb (map submission old)))
              (classify_new_ghost old new _)
              (set_diff (dedup key_eqb (map slot_key new)) (dedup key_eqb (map slot_key old)))
              _ Ha Hb) as (_ & _ & Hd).
  apply Hd; destruct Hk as [Hk|Hk]; [left; apply Hc; right | right]; exists k; auto.
Qed.

Lemma compare_slots_loop_covered old new p :
  In p (calls (compare_slots_loop old new)) -> covered old new p (compare_slots_loop old new).
Proof.
  unfold compare_slots_loop, run_loops.
  apply (loop_cover _ _ (step_new_shape old new _)); intros.
  - apply classify_new_grows.
  - apply classify_new_ghost.
  - apply classify_new_covered.
  - apply (loop_cover _ _ (step_missing_shape old new _)); [| | | | assumption]; intros.
    + apply classify_missing_grows.
    + apply classify_missing_ghost.
    + apply classify_missing_covered.
    + destruct H0.
Qed.

Lemma key_not_in_diff a b k :
  In k (map slot_key a) -> ~ In k (map slot_key b) ->
  In k (set_diff (dedup key_eqb (map slot_key a)) (dedup key_eqb (map slot_key b))).
Proof.
  intros Ha Hb; apply set_diff_In; rewrite !(dedup_In key_eqb key_eqb_eq); auto.
Qed.

Lemma compare_slots_loop_complete old new :
  (forall o, In o old -> ~ In (slot_key o) (map slot_key new) ->
     In o (r_canceled (compare_slots_loop old new)) \/
     exists n, In n new /\ In (mk_move o n) (r_moved (compare_slots_loop old new))) /\
  (forall n, In n new -> ~ In (slot_key n) (map slot_key old) ->
     In n (r_new (compare_slots_loop old new)) \/
     exists o, In o old /\ In (mk_move o n) (r_moved (compare_slots_loop old new))).
Proof.
  split.
  - intros o Ho Hk.
    assert (Hc : In (submission o) (calls (compare_slots_loop old new))).
    { apply (compare_slots_loop_calls old new (slot_key o)); left.
      apply key_not_in_diff; [apply in_map, Ho | exact Hk]. }
    apply compare_slots_loop_covered in Hc as [H _]; apply H; auto.
  - intros n Hn Hk.
    assert (Hc : In (submission n) (calls (compare_slots_loop old new))).
    { apply (compare_slots_loop_calls old new (slot_key n)); right.
      apply key_not_in_diff; [apply in_map, Hn | exact Hk]. }
    apply compare_slots_loop_covered in Hc as [_ H]; apply H; auto.
Qed.

(** The loops only report slots taken from their inputs. *)
Definition loop_sound (old new : list TalkSlot) (ls : LoopState) : Prop :=
  incl (r_new ls) new /\ incl (r_canceled ls) old.

Lemma filter_submission_incl p l : incl (filter_submission p l) l.
Proof. intros x H; apply filter_In in H as [H _]; exact H. Qed.

Lemma add_move_sound old new ls p :
  loop_sound old new ls -> loop_sound old new (add_move ls p old new).
Proof.
  intros [H1 H2]; unfold add_move; rewrite handle_unmatched.
  pose proof (move_matching_spec_parts
                (unmatched (filter_submission p old) (filter_submission p new))
                (unmatched (filter_submission p new) (filter_submission p old))) as Hparts.
  destruct (move_matching_spec _ _) as [[n c] m]; destruct Hparts as (Hn & Hc & _).
  split; simpl; intros x Hx; apply in_app_or in Hx as [Hx|Hx]; auto.
  - apply Hn, unmatched_spec in Hx as (Hx & _); exact Hx.
  - apply Hc, unmatched_spec in Hx as (Hx & _); exact Hx.
Qed.

Lemma compare_slots_loop_sound old new : loop_sound old new (compare_slots_loop old new).
Proof.
  unfold compare_slots_loop, run_loops.
  apply (loop_preserve _ _ (step_new_shape old new _) (loop_sound old new)).
  - intros ls p H; unfold classify_new; destruct (negb _); [|apply add_move_sound, H].
    destruct H as [H1 H2]; split; [|exact H2]; simpl.
    apply incl_app; [exact H1 | apply filter_submission_incl].
  - intros ls p [H1 H2]; split; assumption.
  - apply (loop_preserve _ _ (step_missing_shape old new _) (loop_sound old new)).
    + intros ls p H; unfold classify_missing; destruct (negb _); [|apply add_move_sound, H].
      destruct H as [H1 H2]; split; [exact H1|]; simpl.
      apply incl_app; [exact H2 | apply filter_submission_incl].
    + intros ls p [H1 H2]; split; assumption.
    + split; intros x [].
Qed.

(** ** Further properties of the diff engine *)

(** The comparison reports every change of placement: an old slot whose
    (submission, room, start) is not among the new slots is canceled or the
    old side of a move to a new slot, and a new slot whose placement is not
    among the old slots is new or the new side of a move from an old slot. *)
Theorem compare_slots_complete old_slots new_slots :
  let c := compare_slots old_slots new_slots in
  (forall o, In o old_slots -> ~ In (slot_key o) (map slot_key new_slots) ->
     In o (canceled_talks c) \/
     exists n, In n new_slots /\ In (mk_move o n) (moved_talks c)) /\
  (forall n, In n new_slots -> ~ In (slot_key n) (map slot_key old_slots) ->
     In n (new_talks c) \/
     exists o, In o old_slots /\ In (mk_move o n) (moved_talks c)).
Proof. exact (compare_slots_loop_complete old_slots new_slots). Qed.

(** The comparison's [new_talks] are slots of the new schedule and its
    [canceled_talks] slots of the old one. *)
Theorem compare_slots_sound old_slots new_slots :
  incl (new_talks (compare_slots old_slots new_slots)) new_slots /\
  incl (canceled_talks (compare_slots old_slots new_slots)) old_slots.
Proof. exact (compare_slots_loop_sound old_slots new_slots). Qed.

(** The change count of an update comparison is zero exactly when the two
    schedules have the same set of (submission, room, start) placements. *)
Theorem compare_slots_count_zero old_slots new_slots :
  count (compare_slots old_slots new_slots) = 0%nat <->
  (forall k, In k (map slot_key old_slots) <-> In k (map slot_key new_slots)).
Proof.
  split.
  - intro H0; unfold compare_slots in H0; simpl in H0.
    destruct (compare_slots_loop_complete old_slots new_slots) as [Ho Hn].
    assert (Hc : r_canceled (compare_slots_loop old_slots new_slots) = [] /\
                 r_new (compare_slots_loop old_slots new_slots) = [] /\
                 r_moved (compare_slots_loop old_slots new_slots) = [])
      by (destruct (r_new _), (r_canceled _), (r_moved _); simpl in H0;
          try discriminate; auto; lia).
    destruct Hc as (Hc1 & Hc2 & Hc3).
    intro k; split; intro Hk; apply in_map_iff in Hk as [x [<- Hx]].
    + destruct (key_mem (slot_key x) (map slot_key new_slots)) eqn:E;
        [apply key_mem_In, E|].
      destruct (Ho x Hx) as [H|[n [_ H]]];
        [intro Hin; apply key_mem_In in Hin; congruence | rewrite Hc1 in H; destruct H
        | rewrite Hc3 in H; destruct H].
    + destruct (key_mem (slot_key x) (map slot_key old_slots)) eqn:E;
        [apply key_mem_In, E|].
      destruct (Hn x Hx) as [H|[o [_ H]]];
        [intro Hin; apply key_mem_In in Hin; congruence | rewrite Hc2 in H; destruct H
        | rewrite Hc3 in H; destruct H].
  - intro H; rewrite (compare_slots_same _ _ H); reflexivity.
Qed.

(** ** Further properties of [freeze_schedule] and [unfreeze] *)

Lemma freeze_returned st schedule name now ns frozen wip st' :
  freeze_schedule st schedule name now ns = (Returned (frozen, wip), st') ->
  truthy (version schedule) = false /\ truthy name = true /\
  frozen = mkSchedule (sched_pk schedule) (sched_event schedule) name (Some now) /\
  wip = mkSchedule (next_pk st) (sched_event schedule) None None /\
  let slots := update_visibility (sched_pk schedule)
                 (fun t => is_visible t && negb (placed_and_confirmed st t)) false
                 (update_visibility (sched_pk schedule)
                    (fun t => placed_and_confirmed st t && negb (is_visible t)) true
                    (talk_slots st)) in
  let copies := copy_all (next_pk st) (next_pk st + 1)
                  (filter (fun t => Z.eqb (slot_schedule t) (sched_pk schedule)) slots) in
  st' = mkStore (save_schedule frozen (schedules st) ++ [wip]) (slots ++ copies)
                (sub_state st) (speakers_of st)
                (next_pk st + 1 + Z.of_nat (length copies)).
Proof.
  unfold freeze_schedule.
  destruct (existsb _ _); [discriminate|].
  destruct (truthy (version schedule)); [discriminate|].
  destruct (truthy name) eqn:Hn; simpl; [|discriminate].
  intro H; injection H as <- <- <-; repeat split; reflexivity.
Qed.

Lemma copy_all_content target pk l :
  map slot_content (copy_all target pk l) = map slot_content l.
Proof. revert pk; induction l as [|t l IH]; intro pk; simpl; [reflexivity|]; rewrite IH; reflexivity. Qed.

Lemma filter_update_visibility_other k pk pred v l :
  k <> pk ->
  filter (fun t => Z.eqb (slot_schedule t) k) (update_visibility pk pred v l) =
  filter (fun t => Z.eqb (slot_schedule t) k) l.
Proof.
  intro Hk; induction l as [|t l IH]; [reflexivity|].
  unfold update_visibility in *; simpl.
  destruct (Z.eqb_spec (slot_schedule t) pk) as [E|E]; simpl; [|rewrite IH; reflexivity].
  destruct (Z.eqb_spec pk k) as [E'|_]; [congruence|].
  destruct (pred t); simpl; rewrite E, IH; destruct (Z.eqb_spec pk k); congruence.
Qed.

Lemma filter_update_visibility_none k pk pred v l :
  (forall t, In t l -> slot_schedule t <> k) ->
  filter (fun t => Z.eqb (slot_schedule t) k) (update_visibility pk pred v l) = [].
Proof.
  intro H; apply filter_all_false; intros t Ht.
  apply update_visibility_schedule in Ht as [t0 [Ht0 ->]].
  apply Z.eqb_neq, H, Ht0.
Qed.

Lemma filter_copies_other k target pk l :
  k <> target -> filter (fun t => Z.eqb (slot_schedule t) k) (copy_all target pk l) = [].
Proof.
  intro Hk; apply filter_all_false; intros t Ht.
  rewrite (copy_all_schedule _ _ _ _ Ht); apply Z.eqb_neq; congruence.
Qed.

Lemma filter_copies_same target pk l :
  filter (fun t => Z.eqb (slot_schedule t) target) (copy_all target pk l) = copy_all target pk l.
Proof.
  apply forallb_filter_id, forallb_forall; intros t Ht.
  rewrite (copy_all_schedule _ _ _ _ Ht); apply Z.eqb_refl.
Qed.

Lemma filter_comm {A} (f g : A -> bool) l : filter f (filter g l) = filter g (filter f l).
Proof.
  induction l as [|x l IH]; simpl; [reflexivity|].
  destruct (g x) eqn:Hg, (f x) eqn:Hf; simpl; rewrite ?Hg, ?Hf, IH; reflexivity.
Qed.

Lemma find_filter_head {A} (f : A -> bool) l : find f l = hd_error (filter f l).
Proof. induction l as [|x l IH]; simpl; [reflexivity|]; destruct (f x); [reflexivity | exact IH]. Qed.

Lemma drafts_wip all ev w : drafts all ev = [w] -> wip_schedule all ev = Some w.
Proof. unfold wip_schedule, drafts; rewrite find_filter_head; intros ->; reflexivity. Qed.

(** Once released, the new working draft holds a copy of each slot of the
    released version: same submission, room, start, end and visibility, in
    the same order.  The released schedule keeps its key and gets the name
    and the release time.  The store is well formed: all keys are below the
    next auto-increment key. *)
Theorem freeze_copies_to_new_draft st schedule name now notify_speakers frozen wip st' :
  freeze_schedule st schedule name now notify_speakers = (Returned (frozen, wip), st') ->
  sched_pk schedule < next_pk st ->
  (forall t, In t (talk_slots st) -> slot_schedule t < next_pk st) ->
  sched_pk frozen = sched_pk schedule /\ version frozen = name /\
  published frozen = Some now /\ version wip = None /\
  sched_event wip = sched_event schedule /\
  map slot_content (talks st' (sched_pk wip)) = map slot_content (talks st' (sched_pk frozen)).
Proof.
  intros H Hlt Hfresh.
  apply freeze_returned in H as (_ & _ & -> & -> & ->); simpl.
  repeat split; unfold talks; simpl.
  rewrite !filter_app, filter_copies_same, filter_copies_other by lia.
  rewrite filter_update_visibility_none, app_nil_l, app_nil_r, copy_all_content; [reflexivity|].
  intros t Ht; apply update_visibility_schedule in Ht as [t0 [Ht0 ->]].
  specialize (Hfresh _ Ht0); lia.
Qed.

(** Releasing a schedule changes no other schedule: every other schedule
    row is kept and the slots of every schedule other than the released one
    and the new working draft are the same as before. *)
Theorem freeze_keeps_other_schedules st schedule name now notify_speakers frozen wip st' :
  freeze_schedule st schedule name now notify_speakers = (Returned (frozen, wip), st') ->
  (forall s, In s (schedules st) -> sched_pk s <> sched_pk schedule -> In s (schedules st')) /\
  (forall k, k <> sched_pk schedule -> k <> sched_pk wip -> talks st' k = talks st k).
Proof.
  intro H; apply freeze_returned in H as (_ & _ & -> & -> & ->); split.
  - intros s Hs Hk; simpl; apply in_or_app; left; unfold save_schedule.
    apply in_map_iff; exists s; split; [|exact Hs].
    simpl; destruct (Z.eqb_spec (sched_pk s) (sched_pk schedule)); [contradiction | reflexivity].
  - intros k Hk Hw; unfold talks; simpl in *.
    rewrite filter_app, filter_copies_other, app_nil_r by exact Hw.
    rewrite !filter_update_visibility_other by exact Hk; reflexivity.
Qed.

(** A released schedule cannot be released again: calling [freeze_schedule]
    on the schedule it returned raises, whatever the name, and writes
    nothing. *)
Theorem freeze_not_repeatable st schedule name now notify_speakers frozen wip st' :
  freeze_schedule st schedule name now notify_speakers = (Returned (frozen, wip), st') ->
  forall st'' name' now' notify',
    exists msg, freeze_schedule st'' frozen name' now' notify' = (Raised PyException msg, st'').
Proof.
  intro H; apply freeze_returned in H as (_ & Hn & -> & _); intros st'' name' now' notify'.
  unfold freeze_schedule; destruct (existsb _ _); [eexists; reflexivity|].
  simpl; rewrite Hn; eexists; reflexivity.
Qed.

(** The working draft returned by [freeze_schedule] or by [unfreeze] cannot
    be unfrozen: [unfreeze] on it raises and writes nothing, in any store. *)
Theorem unfreeze_rejects_new_drafts st schedule name now notify_speakers frozen self self' wip st' :
  freeze_schedule st schedule name now notify_speakers = (Returned (frozen, wip), st') \/
  unfreeze st self = (Returned (self', wip), st') ->
  forall st'', unfreeze st'' wip =
    (Raised PyException "Cannot unfreeze schedule version: not released yet."%string, st'').
Proof.
  intros [H|H] st''.
  - apply freeze_returned in H as (_ & _ & _ & -> & _); reflexivity.
  - unfold unfreeze in H; destruct (negb (truthy (version self))); [discriminate|].
    destruct (wip_schedule _ _); [|discriminate].
    injection H as _ <- _; reflexivity.
Qed.

(** Releasing the event's only working draft leaves exactly one working
    draft of the event: the new one. *)
Theorem freeze_single_draft st schedule name now notify_speakers frozen wip st' :
  drafts (schedules st) (sched_event schedule) = [schedule] ->
  freeze_schedule st schedule name now notify_speakers = (Returned (frozen, wip), st') ->
  drafts (schedules st') (sched_event schedule) = [wip].
Proof.
  intros Hd H; apply freeze_returned in H as (_ & Hn & -> & -> & ->); simpl.
  unfold drafts in *; rewrite filter_app; simpl; rewrite Z.eqb_refl; simpl.
  rewrite filter_all_false; [reflexivity|].
  intros r Hr; unfold save_schedule in Hr; apply in_map_iff in Hr as [s [<- Hs]].
  simpl; destruct (Z.eqb_spec (sched_pk s) (sched_pk schedule)) as [E|E]; simpl.
  - destruct name; [apply andb_false_r | discriminate].
  - destruct (Z.eqb (sched_event s) (sched_event schedule) &&
              match version s with None => true | Some _ => false end) eqn:Hs'; [|reflexivity].
    assert (Hin : In s [schedule]) by (rewrite <- Hd; apply filter_In; auto).
    destruct Hin as [<-|[]]; contradiction.
Qed.

(** Unfreezing a version, when its event has exactly one working draft,
    again leaves exactly one working draft of the event: the new one.  The
    store is well formed: the draft's key is below the next auto-increment
    key. *)
Theorem unfreeze_single_draft st self old_wip self' wip st' :
  drafts (schedules st) (sched_event self) = [old_wip] ->
  sched_pk old_wip < next_pk st ->
  unfreeze st self = (Returned (self', wip), st') ->
  drafts (schedules st') (sched_event self) = [wip].
Proof.
  intros Hd Hlt; unfold unfreeze.
  destruct (negb (truthy (version self))); [discriminate|].
  rewrite (drafts_wip _ _ _ Hd); intro H; injection H as _ <- <-; simpl.
  unfold drafts in *; rewrite filter_comm, filter_app, Hd; simpl.
  rewrite !Z.eqb_refl; simpl.
  destruct (Z.eqb_spec (next_pk st) (sched_pk old_wip)); [lia|]; reflexivity.
Qed.

Lemma freeze_copies_to_new_draft_witness :
  ex_freeze = (Returned (ex_v2, ex_wip2), snd ex_freeze) /\
  sched_pk ex_v2 = sched_pk ex_wip /\ version ex_v2 = Some "v2"%string /\
  published ex_v2 = Some 200 /\ version ex_wip2 = None /\
  sched_event ex_wip2 = sched_event ex_wip /\
  map slot_content (talks (snd ex_freeze) (sched_pk ex_wip2)) =
  map slot_content (talks (snd ex_freeze) (sched_pk ex_v2)).
Proof.
  split; [reflexivity|].
  apply (freeze_copies_to_new_draft ex_store ex_wip (Some "v2"%string) 200 true).
  - reflexivity.
  - simpl; lia.
  - intros t Ht; simpl in Ht; repeat (destruct Ht as [<-|Ht]; [simpl; lia|]); destruct Ht.
Defined.

Lemma freeze_keeps_other_schedules_witness :
  ex_freeze = (Returned (ex_v2, ex_wip2), snd ex_freeze) /\
  (forall s, In s (schedules ex_store) -> sched_pk s <> sched_pk ex_wip ->
             In s (schedules (snd ex_freeze))) /\
  (forall k, k <> sched_pk ex_wip -> k <> sched_pk ex_wip2 ->
             talks (snd ex_freeze) k = talks ex_store k).
Proof.
  split; [reflexivity|].
  apply (freeze_keeps_other_schedules ex_store ex_wip (Some "v2"%string) 200 true ex_v2 ex_wip2).
  reflexivity.
Defined.

Lemma freeze_not_repeatable_witness :
  ex_freeze = (Returned (ex_v2, ex_wip2), snd ex_freeze) /\
  exists msg, freeze_schedule (snd ex_freeze) ex_v2 (Some "v3"%string) 300 true
              = (Raised PyException msg, snd ex_freeze).
Proof.
  split; [reflexivity|].
  apply (freeze_not_repeatable ex_store ex_wip (Some "v2"%string) 200 true ex_v2 ex_wip2
           (snd ex_freeze)); reflexivity.
Defined.

Lemma unfreeze_rejects_new_drafts_witness :
  ex_freeze = (Returned (ex_v2, ex_wip2), snd ex_freeze) /\
  unfreeze (snd ex_freeze) ex_wip2 =
    (Raised PyException "Cannot unfreeze schedule version: not released yet."%string, snd ex_freeze).
Proof.
  split; [reflexivity|].
  apply (unfreeze_rejects_new_drafts ex_store ex_wip (Some "v2"%string) 200 true ex_v2 ex_v1 ex_v1
           ex_wip2 (snd ex_freeze)).
  left; reflexivity.
Defined.

Lemma freeze_single_draft_witness :
  drafts (schedules ex_store) (sched_event ex_wip) = [ex_wip] /\
  ex_freeze = (Returned (ex_v2, ex_wip2), snd ex_freeze) /\
  drafts (schedules (snd ex_freeze)) (sched_event ex_wip) = [ex_wip2].
Proof.
  split; [reflexivity|]; split; [reflexivity|].
  apply (freeze_single_draft ex_store ex_wip (Some "v2"%string) 200 true ex_v2 ex_wip2);
    reflexivity.
Defined.

Lemma unfreeze_single_draft_witness :
  drafts (schedules ex_store) (sched_event ex_v1) = [ex_wip] /\
  sched_pk ex_wip < next_pk ex_store /\
  unfreeze ex_store ex_v1 = (Returned (ex_v1, ex_wip2), snd (unfreeze ex_store ex_v1)) /\
  drafts (schedules (snd (unfreeze ex_store ex_v1))) (sched_event ex_v1) = [ex_wip2].
Proof.
  split; [reflexivity|]; split; [simpl; lia|]; split; [reflexivity|].
  apply (unfreeze_single_draft ex_store ex_v1 ex_wip ex_v1 ex_wip2); [reflexivity | simpl; lia | reflexivity].
Defined.

(** ** Properties of [speakers_with_changed_slots] *)

Definition dflt (o : option SpeakerChanges) : SpeakerChanges :=
  match o with Some v => v | None => mkSpeakerChanges [] [] end.

Definition ext_create (l : list TalkSlot) (o : option SpeakerChanges) : option SpeakerChanges :=
  match l with
  | [] => o
  | _ => Some (mkSpeakerChanges (sp_create (dflt o) ++ l) (sp_update (dflt o)))
  end.

Definition ext_update (l : list MoveRecord) (o : option SpeakerChanges) : option SpeakerChanges :=
  match l with
  | [] => o
  | _ => Some (mkSpeakerChanges (sp_create (dflt o)) (sp_update (dflt o) ++ l))
  end.

Lemma get_append_create k sp x d :
  dd_get k (dd_append_create sp x d) =
  if Z.eqb sp k then ext_create [x] (dd_get k d) else dd_get k d.
Proof.
  induction d as [|[k' v] d IH]; simpl.
  - destruct (Z.eqb sp k); reflexivity.
  - destruct (Z.eqb_spec k' sp) as [->|E]; simpl.
    + destruct (Z.eqb sp k); reflexivity.
    + rewrite IH; destruct (Z.eqb_spec k' k), (Z.eqb_spec sp k); subst; try congruence; reflexivity.
Qed.

Lemma get_append_update k sp x d :
  dd_get k (dd_append_update sp x d) =
  if Z.eqb sp k then ext_update [x] (dd_get k d) else dd_get k d.
Proof.
  induction d as [|[k' v] d IH]; simpl.
  - destruct (Z.eqb sp k); reflexivity.
  - destruct (Z.eqb_spec k' sp) as [->|E]; simpl.
    + destruct (Z.eqb sp k); reflexivity.
    + rewrite IH; destruct (Z.eqb_spec k' k), (Z.eqb_spec sp k); subst; try congruence; reflexivity.
Qed.

Lemma keys_append_create k sp x d :
  In k (map fst (dd_append_create sp x d)) <-> k = sp \/ In k (map fst d).
Proof.
  induction d as [|[k' v] d IH]; simpl; [intuition congruence|].
  destruct (Z.eqb_spec k' sp) as [->|E]; simpl; [intuition congruence|]; rewrite IH; intuition congruence.
Qed.

Lemma keys_append_update k sp x d :
  In k (map fst (dd_append_update sp x d)) <-> k = sp \/ In k (map fst d).
Proof.
  induction d as [|[k' v] d IH]; simpl; [intuition congruence|].
  destruct (Z.eqb_spec k' sp) as [->|E]; simpl; [intuition congruence|]; rewrite IH; intuition congruence.
Qed.

Lemma nodup_append_create sp x d :
  NoDup (map fst d) -> NoDup (map fst (dd_append_create sp x d)).
Proof.
  induction d as [|[k' v] d IH]; simpl; intro H; [constructor; [intros []|constructor]|].
  inversion H as [|? ? Hn Hd]; subst.
  destruct (Z.eqb_spec k' sp) as [->|E]; simpl; [exact H|].
  constructor; [rewrite keys_append_create; intros [->|H']; [congruence | contradiction] | auto].
Qed.

Lemma nodup_append_update sp x d :
  NoDup (map fst d) -> NoDup (map fst (dd_append_update sp x d)).
Proof.
  induction d as [|[k' v] d IH]; simpl; intro H; [constructor; [intros []|constructor]|].
  inversion H as [|? ? Hn Hd]; subst.
  destruct (Z.eqb_spec k' sp) as [->|E]; simpl; [exact H|].
  constructor; [rewrite keys_append_update; intros [->|H']; [congruence | contradiction] | auto].
Qed.

Lemma ext_create_cons x l o : ext_create l (ext_create [x] o) = ext_create (x :: l) o.
Proof. destruct l; simpl; [reflexivity|]; rewrite <- app_assoc; reflexivity. Qed.

Lemma ext_update_cons x l o : ext_update l (ext_update [x] o) = ext_update (x :: l) o.
Proof. destruct l; simpl; [reflexivity|]; rewrite <- app_assoc; reflexivity. Qed.

Lemma get_fold_speakers_create k x sps d :
  NoDup sps ->
  dd_get k (fold_left (fun d speaker => dd_append_create speaker x d) sps d) =
  if z_mem k sps then ext_create [x] (dd_get k d) else dd_get k d.
Proof.
  revert d; induction sps as [|sp sps IH]; intros d Hnd; simpl; [reflexivity|].
  inversion Hnd as [|? ? Hn Hd]; subst.
  rewrite IH by exact Hd; rewrite get_append_create.
  destruct (Z.eqb_spec sp k) as [->|E]; simpl.
  - rewrite Z.eqb_refl; simpl.
    destruct (z_mem k sps) eqn:Hm; [apply z_mem_In in Hm; contradiction | reflexivity].
  - destruct (Z.eqb_spec k sp); [congruence|]; reflexivity.
Qed.

Lemma get_fold_speakers_update k x sps d :
  NoDup sps ->
  dd_get k (fold_left (fun d speaker => dd_append_update speaker x d) sps d) =
  if z_mem k sps then ext_update [x] (dd_get k d) else dd_get k d.
Proof.
  revert d; induction sps as [|sp sps IH]; intros d Hnd; simpl; [reflexivity|].
  inversion Hnd as [|? ? Hn Hd]; subst.
  rewrite IH by exact Hd; rewrite get_append_update.
  destruct (Z.eqb_spec sp k) as [->|E]; simpl.
  - rewrite Z.eqb_refl; simpl.
    destruct (z_mem k sps) eqn:Hm; [apply z_mem_In in Hm; contradiction | reflexivity].
  - destruct (Z.eqb_spec k sp); [congruence|]; reflexivity.
Qed.

Section SpeakerFolds.
Variable st : Store.
Hypothesis Hspk : forall p, NoDup (speakers_of st p).

Lemma get_fold_create k ts d :
  dd_get k (fold_left (fun d new_talk =>
              fold_left (fun d speaker => dd_append_create speaker new_talk d)
                        (speakers_of st (submission new_talk)) d) ts d) =
  ext_create (filter (fun t => speaks st k (submission t)) ts) (dd_get k d).
Proof.
  revert d; induction ts as [|t ts IH]; intro d; simpl; [reflexivity|].
  rewrite IH, get_fold_speakers_create by apply Hspk; unfold speaks.
  destruct (z_mem k (speakers_of st (submission t))); [apply ext_create_cons | reflexivity].
Qed.

Lemma get_fold_update k ms d :
  dd_get k (fold_left (fun d moved_talk =>
              fold_left (fun d speaker => dd_append_update speaker moved_talk d)
                        (speakers_of st (mv_submission moved_talk)) d) ms d) =
  ext_update (filter (fun m => speaks st k (mv_submission m)) ms) (dd_get k d).
Proof.
  revert d; induction ms as [|m ms IH]; intro d; simpl; [reflexivity|].
  rewrite IH, get_fold_speakers_update by apply Hspk; unfold speaks.
  destruct (z_mem k (speakers_of st (mv_submission m))); [apply ext_update_cons | reflexivity].
Qed.
End SpeakerFolds.

Lemma nodup_fold_create st ts d :
  NoDup (map fst d) ->
  NoDup (map fst (fold_left (fun d new_talk =>
              fold_left (fun d speaker => dd_append_create speaker new_talk d)
                        (speakers_of st (submission new_talk)) d) ts d)).
Proof.
  revert d; induction ts as [|t ts IH]; intros d H; simpl; [exact H|]; apply IH.
  generalize (speakers_of st (submission t)); intro sps; revert d H.
  induction sps as [|sp sps IHs]; intros d H; simpl; [exact H|].
  apply IHs, nodup_append_create, H.
Qed.

Lemma nodup_fold_update st ms d :
  NoDup (map fst d) ->
  NoDup (map fst (fold_left (fun d moved_talk =>
              fold_left (fun d speaker => dd_append_update speaker moved_talk d)
                        (speakers_of st (mv_submission moved_talk)) d) ms d)).
Proof.
  revert d; induction ms as [|m ms IH]; intros d H; simpl; [exact H|]; apply IH.
  generalize (speakers_of st (mv_submission m)); intro sps; revert d H.
  induction sps as [|sp sps IHs]; intros d H; simpl; [exact H|].
  apply IHs, nodup_append_update, H.
Qed.

(** When the release changes more than cancellations, each speaker appears
    once in the notification dictionary, with exactly the new slots and the
    moves of the submissions they speak in, in the order of the change set;
    a speaker with neither is not in the dictionary.  A speaker is listed at
    most once per submission. *)
Theorem speakers_update_entries st schedule changes :
  (forall p, NoDup (speakers_of st p)) ->
  action changes = update ->
  count changes <> length (canceled_talks changes) ->
  exists d, speakers_from_changes st schedule changes = SpeakerDict d /\
    NoDup (map fst d) /\
    forall sp,
      let cr := filter (fun t => speaks st sp (submission t)) (new_talks changes) in
      let up := filter (fun m => speaks st sp (mv_submission m)) (moved_talks changes) in
      dd_get sp d = match cr, up with
                    | [], [] => None
                    | _, _ => Some (mkSpeakerChanges cr up)
                    end.
Proof.
  intros Hspk Ha Hc; unfold speakers_from_changes; rewrite Ha.
  destruct (Nat.eqb_spec (count changes) (length (canceled_talks changes))); [contradiction|].
  eexists; split; [reflexivity|]; split.
  - apply nodup_fold_update, nodup_fold_create; constructor.
  - intro sp; simpl; rewrite get_fold_update, get_fold_create by exact Hspk; simpl.
    destruct (filter _ (new_talks changes)), (filter _ (moved_talks changes)); reflexivity.
Qed.

Lemma dedup_NoDup {A} (eqb : A -> A -> bool) (Heq : forall a b, eqb a b = true <-> a = b) l :
  NoDup (dedup eqb l).
Proof.
  induction l as [|x l IH]; simpl; [constructor|].
  destruct (existsb (eqb x) l) eqn:E; [exact IH|].
  constructor; [|exact IH].
  rewrite (dedup_In eqb Heq); intro Hx.
  assert (existsb (eqb x) l = true) by (apply existsb_exists; exists x; split; [exact Hx | apply Heq; reflexivity]).
  congruence.
Qed.

Lemma get_map_users st ts users sp :
  dd_get sp (map (fun speaker =>
     (speaker, mkSpeakerChanges
                 (filter (fun t => z_mem speaker (speakers_of st (submission t))) ts) []))
     users) =
  if z_mem sp users
  then Some (mkSpeakerChanges (filter (fun t => speaks st sp (submission t)) ts) [])
  else None.
Proof.
  induction users as [|u users IH]; simpl; [reflexivity|].
  destruct (Z.eqb_spec u sp) as [->|E]; simpl; [rewrite Z.eqb_refl; reflexivity|].
  rewrite IH; destruct (Z.eqb_spec sp u); [congruence | reflexivity].
Qed.

(** When the schedule has no predecessor, every speaker of a slot of the
    schedule appears once in the notification dictionary, with all slots of
    the schedule for submissions they speak in (whether placed or visible or
    not), and nothing to update; no one else appears. *)
Theorem speakers_create_entries st schedule changes :
  action changes = create ->
  exists d, speakers_from_changes st schedule changes = SpeakerDict d /\
    NoDup (map fst d) /\
    forall sp,
      dd_get sp d =
      match filter (fun t => speaks st sp (submission t)) (talks st (sched_pk schedule)) with
      | [] => None
      | cr => Some (mkSpeakerChanges cr [])
      end.
Proof.
  intro Ha; unfold speakers_from_changes; rewrite Ha.
  eexists; split; [reflexivity|]; split.
  - rewrite map_map; simpl; rewrite map_id; apply (dedup_NoDup Z.eqb Z.eqb_eq).
  - intro sp; rewrite get_map_users.
    destruct (z_mem sp _) eqn:E.
    + apply z_mem_In, (dedup_In Z.eqb Z.eqb_eq), in_flat_map in E as [t [Ht Hsp]].
      destruct (filter _ _) eqn:F; [|reflexivity].
      assert (Hin : In t (filter (fun t => speaks st sp (submission t))
                                 (talks st (sched_pk schedule))))
        by (apply filter_In; split; [exact Ht | apply z_mem_In, Hsp]).
      rewrite F in Hin; destruct Hin.
    + destruct (filter _ _) as [|t l] eqn:F; [reflexivity|].
      assert (Hin : In t (filter (fun t => speaks st sp (submission t))
                                 (talks st (sched_pk schedule)))) by (rewrite F; left; reflexivity).
      apply filter_In in Hin as [Ht Hsp]; apply z_mem_In in Hsp.
      assert (z_mem sp (dedup Z.eqb (flat_map (fun t => speakers_of st (submission t))
                                        (talks st (sched_pk schedule)))) = true)
        by (apply z_mem_In, (dedup_In Z.eqb Z.eqb_eq), in_flat_map; exists t; auto).
      congruence.
Qed.

Lemma ex_speakers_nodup : forall p, NoDup (speakers_of ex_store p).
Proof. intro p; simpl; constructor; [intros [] | constructor]. Qed.

Lemma speakers_update_entries_witness :
  (forall p, NoDup (speakers_of ex_store p)) /\
  action (compare_schedule_with_predecessor true ex_store ex_wip) = update /\
  count (compare_schedule_with_predecessor true ex_store ex_wip) <>
    length (canceled_talks (compare_schedule_with_predecessor true ex_store ex_wip)) /\
  exists d, speakers_from_changes ex_store ex_wip
              (compare_schedule_with_predecessor true ex_store ex_wip) = SpeakerDict d /\
    NoDup (map fst d) /\
    forall sp,
      let c := compare_schedule_with_predecessor true ex_store ex_wip in
      let cr := filter (fun t => speaks ex_store sp (submission t)) (new_talks c) in
      let up := filter (fun m => speaks ex_store sp (mv_submission m)) (moved_talks c) in
      dd_get sp d = match cr, up with
                    | [], [] => None
                    | _, _ => Some (mkSpeakerChanges cr up)
                    end.
Proof.
  split; [exact ex_speakers_nodup|]; split; [reflexivity|]; split; [vm_compute; discriminate|].
  apply speakers_update_entries; [exact ex_speakers_nodup | reflexivity | vm_compute; discriminate].
Defined.

Lemma speakers_create_entries_witness :
  action (compare_schedule_with_predecessor true ex_store ex_v1) = create /\
  exists d, speakers_from_changes ex_store ex_v1
              (compare_schedule_with_predecessor true ex_store ex_v1) = SpeakerDict d /\
    NoDup (map fst d) /\
    forall sp,
      dd_get sp d =
      match filter (fun t => speaks ex_store sp (submission t)) (talks ex_store (sched_pk ex_v1)) with
      | [] => None
      | cr => Some (mkSpeakerChanges cr [])
      end.
Proof. split; [reflexivity | apply speakers_create_entries; reflexivity]. Defined.

(** ** Properties of [url_version] *)

Definition unhex (c : Ascii.ascii) : nat :=
  let n := Ascii.nat_of_ascii c in if Nat.ltb n 58 then n - 48 else n - 55.

Lemma unhex_hex d : (d < 16)%nat -> unhex (hex_digit d) = d.
Proof. intro H; do 16 (destruct d as [|d]; [reflexivity|]); lia. Qed.

Lemma quote_byte_unsafe_inj c c' :
  Nat.div (Ascii.nat_of_ascii c) 16 = Nat.div (Ascii.nat_of_ascii c') 16 ->
  Nat.modulo (Ascii.nat_of_ascii c) 16 = Nat.modulo (Ascii.nat_of_ascii c') 16 -> c = c'.
Proof.
  intros H1 H2.
  rewrite <- (Ascii.ascii_nat_embedding c), <- (Ascii.ascii_nat_embedding c').
  f_equal; rewrite (Nat.div_mod_eq (Ascii.nat_of_ascii c) 16),
                   (Nat.div_mod_eq (Ascii.nat_of_ascii c') 16), H1, H2; reflexivity.
Qed.

Lemma hex_digit_inj a b : (a < 16)%nat -> (b < 16)%nat -> hex_digit a = hex_digit b -> a = b.
Proof. intros Ha Hb H; rewrite <- (unhex_hex a Ha), <- (unhex_hex b Hb), H; reflexivity. Qed.

Lemma div16_lt c : (Nat.div (Ascii.nat_of_ascii c) 16 < 16)%nat.
Proof. pose proof (Ascii.nat_ascii_bounded c); apply Nat.Div0.div_lt_upper_bound; lia. Qed.

Lemma mod16_lt c : (Nat.modulo (Ascii.nat_of_ascii c) 16 < 16)%nat.
Proof. apply Nat.mod_upper_bound; lia. Qed.

(** Distinct strings quote to distinct strings. *)
Lemma quote_inj a b : quote a = quote b -> a = b.
Proof.
  revert b; induction a as [|c a IH]; intros [|d b] H; cbn [quote] in H; try reflexivity.
  - unfold quote_byte in H; destruct (quote_safe d); discriminate.
  - unfold quote_byte in H; destruct (quote_safe c); discriminate.
  - unfold quote_byte in H.
    destruct (quote_safe c) eqn:Hc, (quote_safe d) eqn:Hd; cbn [append] in H; injection H.
    + intros Hr ->; f_equal; apply IH, Hr.
    + intros _ E; subst c; vm_compute in Hc; discriminate.
    + intros _ E; subst d; vm_compute in Hd; discriminate.
    + intros Hr Hlo Hhi.
      apply hex_digit_inj in Hlo; [|apply mod16_lt|apply mod16_lt].
      apply hex_digit_inj in Hhi; [|apply div16_lt|apply div16_lt].
      rewrite (quote_byte_unsafe_inj c d Hhi Hlo), (IH b Hr); reflexivity.
Qed.

(** The public URL segments of two released schedules are equal only when
    their versions are equal. *)
Theorem url_version_injective a b :
  truthy (version a) = true -> truthy (version b) = true ->
  url_version a = url_version b -> version a = version b.
Proof.
  unfold url_version, truthy; destruct (version a) as [va|], (version b) as [vb|];
    try discriminate; intros Ha Hb.
  apply negb_true_iff in Ha, Hb; rewrite Ha, Hb; intro H; f_equal; apply quote_inj, H.
Qed.

(** The schedule a successful freeze releases gets a public URL segment
    that is neither ['wip'] nor ['latest'], and the new working draft gets
    ['wip']. *)
Theorem freeze_url_versions st schedule name now notify_speakers frozen wip st' :
  freeze_schedule st schedule name now notify_speakers = (Returned (frozen, wip), st') ->
  url_version frozen <> "wip"%string /\ url_version frozen <> "latest"%string /\
  url_version wip = "wip"%string.
Proof.
  intro H; pose proof H as H'; unfold freeze_schedule in H'.
  destruct (existsb _ _) eqn:Hres; [discriminate|]; clear H'.
  apply freeze_returned in H as (_ & Hn & -> & -> & _).
  unfold url_version, truthy in *; simpl.
  destruct name as [v|]; [|discriminate]; apply negb_true_iff in Hn; rewrite Hn.
  simpl in Hres; apply orb_false_iff in Hres as [Hw Hres]; apply orb_false_iff in Hres as [Hl _].
  repeat split.
  - intro E; change "wip"%string with (quote "wip") in E; apply quote_inj in E; subst.
    discriminate.
  - intro E; change "latest"%string with (quote "latest") in E; apply quote_inj in E; subst.
    discriminate.
Qed.

(** ** Properties of [Schedule.warnings] and [Schedule.scheduled_talks] after a release *)

Lemma warn_step_fields st hw ut ht w t :
  warn_step st hw ut ht w t =
  mkWarnings
    (talk_warnings w ++ if match start t with Some _ => hw t | None => false end then [t] else [])
    (unscheduled w ++ if match start t with Some _ => false | None => true end then [t] else [])
    (unconfirmed w ++ if negb (state_eqb (sub_state st (submission t)) CONFIRMED) then [t] else [])
    (no_track w ++ if ut && negb (ht (submission t)) then [t] else []).
Proof.
  destruct w as [a b c d]; unfold warn_step; simpl.
  destruct (start t), (hw t), (negb (state_eqb _ _)), (ut && negb (ht (submission t)));
    simpl; rewrite ?app_nil_r; reflexivity.
Qed.

(** Each warning list is the schedule's slots, in order, that meet its
    condition. *)
Lemma warnings_filters st hw ut ht s :
  let ts := talks st (sched_pk s) in
  warnings st hw ut ht s =
  mkWarnings (filter (fun t => match start t with Some _ => hw t | None => false end) ts)
             (filter (fun t => match start t with Some _ => false | None => true end) ts)
             (filter (fun t => negb (state_eqb (sub_state st (submission t)) CONFIRMED)) ts)
             (filter (fun t => ut && negb (ht (submission t))) ts).
Proof.
  unfold warnings; simpl; generalize (talks st (sched_pk s)) as ts.
  assert (H : forall ts w, fold_left (warn_step st hw ut ht) ts w =
    mkWarnings (talk_warnings w ++ filter (fun t => match start t with Some _ => hw t | None => false end) ts)
               (unscheduled w ++ filter (fun t => match start t with Some _ => false | None => true end) ts)
               (unconfirmed w ++ filter (fun t => negb (state_eqb (sub_state st (submission t)) CONFIRMED)) ts)
               (no_track w ++ filter (fun t => ut && negb (ht (submission t))) ts)).
  { induction ts as [|t ts IH]; intro w; simpl.
    - destruct w; rewrite !app_nil_r; reflexivity.
    - rewrite IH, warn_step_fields; simpl; rewrite <- !app_assoc.
      destruct (start t), (hw t), (state_eqb _ _), (ut && negb (ht (submission t)));
        reflexivity. }
  intro ts; rewrite H; reflexivity.
Qed.

(** [t'] is [t] with possibly another visibility. *)
Definition same_but_visibility (t t' : TalkSlot) : Prop :=
  slot_pk t' = slot_pk t /\ slot_schedule t' = slot_schedule t /\
  submission t' = submission t /\ room t' = room t /\ start t' = start t /\ end_ t' = end_ t.

Lemma update_visibility_maps pk pred v l t :
  In t l -> exists t', In t' (update_visibility pk pred v l) /\ same_but_visibility t t'.
Proof.
  intro H; unfold update_visibility.
  eexists; split; [apply in_map, H|].
  destruct (_ && _); repeat split.
Qed.

Lemma placed_and_confirmed_same st t t' :
  same_but_visibility t t' -> placed_and_confirmed st t' = placed_and_confirmed st t.
Proof. intros (_ & _ & Hs & _ & Hst & _); unfold placed_and_confirmed; rewrite Hs, Hst; reflexivity. Qed.

(** The slots of the released schedule after a freeze: each is visible
    exactly when it is placed and confirmed. *)
Lemma freeze_frozen_visible st schedule name now ns frozen wip st' t :
  freeze_schedule st schedule name now ns = (Returned (frozen, wip), st') ->
  In t (talks st' (sched_pk frozen)) -> is_visible t = placed_and_confirmed st t.
Proof.
  intro H; apply freeze_returned in H as (_ & _ & -> & -> & ->).
  unfold talks; simpl; intro Ht; apply filter_In in Ht as [Ht Hpk]; apply Z.eqb_eq in Hpk.
  apply in_app_or in Ht as [Ht|Ht]; [apply (visibility_passes st _ _ t Ht Hpk)|].
  apply copy_all_in in Ht as (t0 & k & Ht0 & ->).
  apply filter_In in Ht0 as [Ht0 Hpk0]; apply Z.eqb_eq in Hpk0.
  exact (visibility_passes st _ _ t0 Ht0 Hpk0).
Qed.

(** The warnings shown before a release predict what the release shows:
    each slot of the draft is kept in the released schedule (same key,
    submission, room, start and end), and it is visible there exactly when
    it was listed neither as unscheduled nor as unconfirmed. *)
Theorem warnings_predict_release st schedule name now notify_speakers frozen wip st'
    has_warnings use_tracks has_track t :
  freeze_schedule st schedule name now notify_speakers = (Returned (frozen, wip), st') ->
  In t (talks st (sched_pk schedule)) ->
  let w := warnings st has_warnings use_tracks has_track schedule in
  exists t', In t' (talks st' (sched_pk frozen)) /\ same_but_visibility t t' /\
    (is_visible t' = true <-> ~ In t (unscheduled w) /\ ~ In t (unconfirmed w)).
Proof.
  intros H Ht w; pose proof H as Hfz.
  apply freeze_returned in H as (_ & _ & Hfr & -> & Hst').
  unfold w; rewrite warnings_filters; simpl.
  pose proof Ht as Ht'; unfold talks in Ht'; apply filter_In in Ht' as [Hin Hpk]; apply Z.eqb_eq in Hpk.
  destruct (update_visibility_maps (sched_pk schedule)
              (fun t => placed_and_confirmed st t && negb (is_visible t)) true _ t Hin)
    as [t1 [Ht1 S1]].
  destruct (update_visibility_maps (sched_pk schedule)
              (fun t => is_visible t && negb (placed_and_confirmed st t)) false _ t1 Ht1)
    as [t2 [Ht2 S2]].
  assert (S : same_but_visibility t t2).
  { destruct S1 as (a1 & b1 & c1 & d1 & e1 & f1), S2 as (a2 & b2 & c2 & d2 & e2 & f2).
    repeat split; congruence. }
  assert (Hin2 : In t2 (talks st' (sched_pk frozen))).
  { rewrite Hst', Hfr; unfold talks; simpl; apply filter_In; split.
    - apply in_or_app; left; exact Ht2.
    - destruct S as (_ & Hs & _); rewrite Hs, Hpk; apply Z.eqb_refl. }
  exists t2; split; [exact Hin2 | split; [exact S|]].
  rewrite (freeze_frozen_visible _ _ _ _ _ _ _ _ _ Hfz Hin2), (placed_and_confirmed_same st t t2 S).
  rewrite !filter_In; unfold placed_and_confirmed.
  destruct (start t); [|split; [discriminate | intros [Hu _]; exfalso; apply Hu; auto]].
  destruct (state_eqb (sub_state st (submission t)) CONFIRMED); simpl;
    [split; [intros _; split; intros [_ ?]; discriminate | reflexivity]|].
  split; [discriminate | intros [_ Hc]; exfalso; apply Hc; auto].
Qed.

(** After a successful freeze, the scheduled talks of the released schedule
    are its slots with a room, a start and a confirmed submission, and its
    [slots] are the submissions with such a slot. *)
Theorem freeze_scheduled_talks st schedule name now notify_speakers frozen wip st' :
  freeze_schedule st schedule name now notify_speakers = (Returned (frozen, wip), st') ->
  scheduled_talks st' frozen =
    filter (fun t => match room t, start t with
                     | Some _, Some _ => state_eqb (sub_state st (submission t)) CONFIRMED
                     | _, _ => false
                     end) (talks st' (sched_pk frozen)) /\
  (forall p, In p (slots st' frozen) <->
     exists t, In t (talks st' (sched_pk frozen)) /\ submission t = p /\
               room t <> None /\ start t <> None /\ sub_state st p = CONFIRMED).
Proof.
  intro H.
  assert (Hsub : sub_state st' = sub_state st)
    by (apply freeze_returned in H as (_ & _ & _ & _ & ->); reflexivity).
  assert (E : scheduled_talks st' frozen =
    filter (fun t => match room t, start t with
                     | Some _, Some _ => state_eqb (sub_state st (submission t)) CONFIRMED
                     | _, _ => false
                     end) (talks st' (sched_pk frozen))).
  { unfold scheduled_talks; apply filter_ext_in; intros t Ht.
    rewrite (freeze_frozen_visible _ _ _ _ _ _ _ _ _ H Ht), Hsub; unfold placed_and_confirmed.
    destruct (room t), (start t); try reflexivity.
    destruct (sub_state st (submission t)); reflexivity. }
  split; [exact E|].
  intro p; unfold slots; rewrite (dedup_In Z.eqb Z.eqb_eq), in_map_iff, E; split.
  - intros [t [<- Ht]]; apply filter_In in Ht as [Ht Hc]; exists t.
    destruct (room t), (start t); try discriminate.
    apply state_eqb_eq in Hc; repeat split; try discriminate; auto.
  - intros (t & Ht & <- & Hr & Hs & Hc); exists t; split; [reflexivity|].
    apply filter_In; split; [exact Ht|].
    destruct (room t), (start t); try contradiction.
    apply state_eqb_eq, Hc.
Qed.

Lemma url_version_injective_witness :
  truthy (version ex_v1) = true /\ truthy (version (mkSchedule 30 2 (Some "v1"%string) None)) = true /\
  url_version ex_v1 = url_version (mkSchedule 30 2 (Some "v1"%string) None) /\
  version ex_v1 = version (mkSchedule 30 2 (Some "v1"%string) None).
Proof.
  split; [reflexivity|]; split; [reflexivity|]; split; [reflexivity|].
  apply url_version_injective; reflexivity.
Defined.

Lemma freeze_url_versions_witness :
  ex_freeze = (Returned (ex_v2, ex_wip2), snd ex_freeze) /\
  url_version ex_v2 <> "wip"%string /\ url_version ex_v2 <> "latest"%string /\
  url_version ex_wip2 = "wip"%string.
Proof.
  split; [reflexivity|].
  apply (freeze_url_versions ex_store ex_wip (Some "v2"%string) 200 true ex_v2 ex_wip2 (snd ex_freeze));
    reflexivity.
Defined.

Lemma warnings_predict_release_witness :
  ex_freeze = (Returned (ex_v2, ex_wip2), snd ex_freeze) /\
  In (mkSlot 12 2 6 (Some ex_room) (Some 1200) (Some 1300) true) (talks ex_store (sched_pk ex_wip)) /\
  let w := warnings ex_store (fun _ => false) false (fun _ => true) ex_wip in
  exists t', In t' (talks (snd ex_freeze) (sched_pk ex_v2)) /\
    same_but_visibility (mkSlot 12 2 6 (Some ex_room) (Some 1200) (Some 1300) true) t' /\
    (is_visible t' = true <->
     ~ In (mkSlot 12 2 6 (Some ex_room) (Some 1200) (Some 1300) true) (unscheduled w) /\
     ~ In (mkSlot 12 2 6 (Some ex_room) (Some 1200) (Some 1300) true) (unconfirmed w)).
Proof.
  split; [reflexivity|]; split; [simpl; auto|].
  apply (warnings_predict_release ex_store ex_wip (Some "v2"%string) 200 true ex_v2 ex_wip2);
    [reflexivity | simpl; auto].
Defined.

Lemma freeze_scheduled_talks_witness :
  ex_freeze = (Returned (ex_v2, ex_wip2), snd ex_freeze) /\
  scheduled_talks (snd ex_freeze) ex_v2 =
    filter (fun t => match room t, start t with
                     | Some _, Some _ => state_eqb (sub_state ex_store (submission t)) CONFIRMED
                     | _, _ => false
                     end) (talks (snd ex_freeze) (sched_pk ex_v2)) /\
  (forall p, In p (slots (snd ex_freeze) ex_v2) <->
     exists t, In t (talks (snd ex_freeze) (sched_pk ex_v2)) /\ submission t = p /\
               room t <> None /\ start t <> None /\ sub_state ex_store p = CONFIRMED).
Proof.
  split; [reflexivity|].
  apply (freeze_scheduled_talks ex_store ex_wip (Some "v2"%string) 200 true ex_v2 ex_wip2);
    reflexivity.
Defined.

(** ** [Schedule.is_archived] after a release *)

Lemma freeze_current st schedule name now ns frozen wip st' :
  freeze_schedule st schedule name now ns = (Returned (frozen, wip), st') ->
  In schedule (schedules st) ->
  (forall s q, In s (schedules st) -> sched_pk s <> sched_pk schedule ->
               published s = Some q -> q < now) ->
  exists c, current_schedule (schedules st') (sched_event frozen) = Some c /\
            sched_pk c = sched_pk frozen.
Proof.
  intros H Hin Hlt; apply freeze_returned in H as (_ & Hn & -> & -> & ->).
  unfold current_schedule; simpl.
  set (fr := mkSchedule (sched_pk schedule) (sched_event schedule) name (Some now)).
  set (l := filter _ _).
  assert (Hfr : In fr l).
  { apply filter_In; split.
    - apply in_or_app; left; unfold save_schedule; apply in_map_iff; exists schedule.
      rewrite Z.eqb_refl; split; [reflexivity | exact Hin].
    - simpl; rewrite Z.eqb_refl; destruct name; [reflexivity | discriminate]. }
  destruct (first_by_published_spec true l) as [H1 H2].
  destruct (first_by_published true l) as [c|] eqn:Hc;
    [|rewrite (H1 eq_refl) in Hfr; destruct Hfr].
  exists c; split; [reflexivity|].
  destruct (H2 c eq_refl) as [Hcl Hmax].
  specialize (Hmax fr Hfr); simpl in Hmax.
  apply filter_In in Hcl as [Hcl Hp]; apply andb_true_iff in Hp as [_ Hp].
  destruct (published c) as [q|] eqn:Hq; [|discriminate].
  apply Z.ltb_ge in Hmax.
  apply in_app_or in Hcl as [Hcl|[<-|[]]]; [|discriminate].
  unfold save_schedule in Hcl; apply in_map_iff in Hcl as [r [Hr Hrin]].
  subst c; unfold fr in *; simpl in *.
  destruct (Z.eqb_spec (sched_pk r) (sched_pk schedule)) as [E|E]; [reflexivity|].
  specialize (Hlt r q Hrin E Hq); lia.
Qed.

(** After a release, and when the store's other schedules were published
    before it, the released version is the event's current schedule: it is
    not archived, and every other versioned schedule of the event is. *)
Theorem freeze_archives_others st schedule name now notify_speakers frozen wip st' :
  freeze_schedule st schedule name now notify_speakers = (Returned (frozen, wip), st') ->
  In schedule (schedules st) ->
  (forall s q, In s (schedules st) -> sched_pk s <> sched_pk schedule ->
               published s = Some q -> q < now) ->
  is_archived (schedules st') frozen = false /\
  (forall s, In s (schedules st') -> sched_event s = sched_event frozen ->
             truthy (version s) = true -> sched_pk s <> sched_pk frozen ->
             is_archived (schedules st') s = true).
Proof.
  intros H Hin Hlt.
  destruct (freeze_current _ _ _ _ _ _ _ _ H Hin Hlt) as [c [Hc Hpk]].
  apply freeze_returned in H as (_ & Hn & Hfr & _ & _).
  split.
  - unfold is_archived; rewrite Hfr in *; simpl in *; rewrite Hn; simpl.
    rewrite Hc, Hpk, Z.eqb_refl; reflexivity.
  - intros s _ He Hv Hne; unfold is_archived; rewrite Hv, He, Hc; simpl.
    apply negb_true_iff, Z.eqb_neq; congruence.
Qed.

Lemma freeze_archives_others_witness :
  ex_freeze = (Returned (ex_v2, ex_wip2), snd ex_freeze) /\
  In ex_wip (schedules ex_store) /\
  (forall s q, In s (schedules ex_store) -> sched_pk s <> sched_pk ex_wip ->
               published s = Some q -> q < 200) /\
  is_archived (schedules (snd ex_freeze)) ex_v2 = false /\
  (forall s, In s (schedules (snd ex_freeze)) -> sched_event s = sched_event ex_v2 ->
             truthy (version s) = true -> sched_pk s <> sched_pk ex_v2 ->
             is_archived (schedules (snd ex_freeze)) s = true).
Proof.
  assert (Hlt : forall s q, In s (schedules ex_store) -> sched_pk s <> sched_pk ex_wip ->
                            published s = Some q -> q < 200).
  { intros s q Hs Hk Hq; simpl in Hs.
    destruct Hs as [<-|[<-|[]]]; simpl in *; [injection Hq as <-; lia | congruence]. }
  split; [reflexivity|]; split; [simpl; auto|]; split; [exact Hlt|].
  apply (freeze_archives_others ex_store ex_wip (Some "v2"%string) 200 true ex_v2 ex_wip2);
    [reflexivity | simpl; auto | exact Hlt].
Defined.

(** ** The talk page *)








Lemma filter_filter_and {A} (f g : A -> bool) l :
  filter f (filter g l) = filter (fun x => g x && f x) l.
Proof.
  induction l as [|x l IH]; simpl; [reflexivity|].
  destruct (g x); simpl; [destruct (f x); simpl; rewrite IH; reflexivity | exact IH].
Qed.


(** [unfreeze] changes no other schedule: every schedule row other than the
    deleted working draft is kept, and the slots of every schedule other
    than the deleted draft and the new one are the same as before. *)
Theorem unfreeze_keeps_other_schedules st self old_wip self' wip st' :
  wip_schedule (schedules st) (sched_event self) = Some old_wip ->
  unfreeze st self = (Returned (self', wip), st') ->
  (forall s, In s (schedules st) -> sched_pk s <> sched_pk old_wip -> In s (schedules st')) /\
  (forall k, k <> sched_pk old_wip -> k <> sched_pk wip -> talks st' k = talks st k).
Proof.
  intros Hw; unfold unfreeze; rewrite Hw.
  destruct (negb (truthy (version self))); [discriminate|].
  intro H; injection H as _ <- <-; simpl; split.
  - intros s Hs Hk; apply filter_In; split; [apply in_or_app; left; exact Hs|].
    apply negb_true_iff, Z.eqb_neq, Hk.
  - intros k Hk Hn; unfold talks; simpl.
    rewrite filter_filter_and, filter_app.
    rewrite (filter_all_false _ (copy_all _ _ _)), app_nil_r.
    + apply filter_ext_in; intros t _.
      destruct (Z.eqb_spec (slot_schedule t) k) as [->|]; simpl; [|apply andb_false_r].
      destruct (Z.eqb_spec k (sched_pk old_wip)); [contradiction | reflexivity].
    + intros t Ht; rewrite (copy_all_schedule _ _ _ _ Ht).
      destruct (Z.eqb_spec (next_pk st) k); [congruence | apply andb_false_r].
Qed.

Lemma unfreeze_keeps_other_schedules_witness :
  wip_schedule (schedules ex_store) (sched_event ex_v1) = Some ex_wip /\
  unfreeze ex_store ex_v1 = (Returned (ex_v1, ex_wip2), snd (unfreeze ex_store ex_v1)) /\
  (forall s, In s (schedules ex_store) -> sched_pk s <> sched_pk ex_wip ->
             In s (schedules (snd (unfreeze ex_store ex_v1)))) /\
  (forall k, k <> sched_pk ex_wip -> k <> sched_pk ex_wip2 ->
             talks (snd (unfreeze ex_store ex_v1)) k = talks ex_store k).
Proof.
  split; [reflexivity|]; split; [reflexivity|].
  apply (unfreeze_keeps_other_schedules ex_store ex_v1 ex_wip ex_v1 ex_wip2); reflexivity.
Defined.
